(** * LSEQ sequence CRDT: the operation codec and the Sequence facade

    A shallow embedding of [src/Op.ts] and [src/Sequence.ts].  The two
    files import [./idents] and [./storage]; identifiers and the default
    array storage are modelled from the specification and marked as
    such, while the [Storage] and [IdentGenerator] interfaces that the
    [Sequence] constructor accepts are kept as type classes, so that
    what the facade does is stated for every implementation of them. *)

From Stdlib Require Import ZArith NArith List String Ascii Bool Lia.
From Stdlib Require Import DecimalString DecimalZ DecimalN DecimalPos.
From Stdlib Require Import Sorting.Sorted Sorting.Permutation OrderedTypeEx.
Import ListNotations.

Local Open Scope string_scope.
Local Open Scope Z_scope.

(** ** JavaScript run-time conventions used by the two files *)

Module Js.

(** Exceptions a call can end with.  [TypeError] is what a property
    access or a method call on [undefined] / [null] raises, [Error] is
    [throw new Error(msg)], [DecodeError] is the decode failure of the
    identifier parser. *)
Inductive error : Type :=
| TypeError
| DecodeError
| Error (msg : string).

(** How a call ends: normally with a value, or with an exception. *)
Inductive outcome (A : Type) : Type :=
| Ret (a : A)
| Throw (e : error).

Arguments Ret {A} a.
Arguments Throw {A} e.

Definition bind {A B : Type} (m : outcome A) (f : A -> outcome B) : outcome B :=
  match m with
  | Ret a => f a
  | Throw e => Throw e
  end.

Fixpoint mapM {A B : Type} (f : A -> outcome B) (l : list A) : outcome (list B) :=
  match l with
  | [] => Ret []
  | a :: l' => bind (f a) (fun b => bind (mapM f l') (fun bs => Ret (b :: bs)))
  end.

(** [s.split(c)] for a one-character separator: always at least one
    piece, the pieces never contain [c]. *)
Fixpoint split (c : ascii) (s : string) : list string :=
  match s with
  | EmptyString => [EmptyString]
  | String a s' =>
      if Ascii.eqb a c then EmptyString :: split c s'
      else match split c s' with
           | h :: t => String a h :: t
           | [] => [String a EmptyString]
           end
  end.

(** [l.join(sep)] on an array of strings. *)
Fixpoint join (sep : string) (l : list string) : string :=
  match l with
  | [] => EmptyString
  | [s] => s
  | s :: l' => s ++ sep ++ join sep l'
  end.

(** [s.substr(1)]. *)
Definition substr1 (s : string) : string :=
  match s with
  | EmptyString => EmptyString
  | String _ s' => s'
  end.

(** [s[0]]: [None] stands for [undefined] on the empty string. *)
Definition char0 (s : string) : option ascii :=
  match s with
  | EmptyString => None
  | String a _ => Some a
  end.

(** Number-to-string conversion of an integer-valued number: decimal
    digits with a leading minus sign for negative ones.  (This is the
    conversion for integers below 10^21 in absolute value, the logical
    times and enum members that occur here; larger numbers print with
    an exponent.) *)
Definition Z_to_string (z : Z) : string :=
  NilZero.string_of_int (Z.to_int z).

(** Destructuring [let [a, b, c, d] = arr]: a missing element is
    [undefined], here [None]. *)
Definition elem (l : list string) (n : nat) : option string := nth_error l n.

End Js.

Import Js.

Declare Scope js_scope.
Delimit Scope js_scope with js.
Notation "x <- m ;; k" := (Js.bind m (fun x => k))
  (at level 61, m at next level, right associativity) : js_scope.

(** ** Identifiers *)

Module Ident.

(** Modelled from the spec: [Segment] of [src/idents], which is
    missing: a position with the disambiguator (replica id) that
    breaks ties. *)
Record Segment : Type := mkSegment {
  position : N;
  disambiguator : string
}.

(** Modelled from the spec: [Ident] of [src/idents], which is missing:
    an ordered sequence of segments. *)
Definition t : Type := list Segment.

(** Modelled from the spec: the comparison of two segments of
    [src/idents], which is missing: by position, ties broken by the
    disambiguator. *)
Definition Segment_compare (a b : Segment) : comparison :=
  match N.compare (position a) (position b) with
  | Eq => String.compare (disambiguator a) (disambiguator b)
  | c => c
  end.

(** Modelled from the spec: [Ident.compare] of [src/idents], which is
    missing: comparison is lexicographic over segments, and of two
    identifiers where one is a strict prefix of the other the shorter
    sorts first. *)
Fixpoint compare (a b : t) : comparison :=
  match a, b with
  | [], [] => Eq
  | [], _ :: _ => Lt
  | _ :: _, [] => Gt
  | x :: a', y :: b' =>
      match Segment_compare x y with
      | Eq => compare a' b'
      | c => c
      end
  end.

(** Modelled from the spec: [Ident.getDepth] of [src/idents], which is
    missing: depth is the number of segments. *)
Definition getDepth (i : t) : Z := Z.of_nat (List.length i).

(** Modelled from the spec: the text of a segment of [src/idents],
    which is missing: [<position>,<disambiguator>]. *)
Definition Segment_toString (s : Segment) : string :=
  NilZero.string_of_uint (N.to_uint (position s)) ++ "," ++ disambiguator s.

(** Modelled from the spec: [Ident.toString] of [src/idents], which is
    missing: the textual form joins the segments with a fixed
    separator; the separator is left to the implementation and is a
    dot here. *)
Definition toString (i : t) : string :=
  Js.join "." (List.map Segment_toString i).

(** Modelled from the spec: the parser of one segment of
    [src/idents], which is missing: a position in decimal digits, a
    comma, the disambiguator; anything else is a decode error. *)
Definition Segment_parse (tok : string) : outcome Segment :=
  match Js.split "," tok with
  | [p; d] =>
      match NilZero.uint_of_string p with
      | Some u => Ret (mkSegment (N.of_uint u) d)
      | None => Throw DecodeError
      end
  | _ => Throw DecodeError
  end.

(** Modelled from the spec: [Ident.parse] of [src/idents], which is
    missing: parsing inverts [toString]; malformed identifier text is
    a decode error surfaced to the caller. *)
Definition parse (s : string) : outcome t :=
  Js.mapM Segment_parse (Js.split "." s).

End Ident.

(** ** Values

    The run-time values that reach the fields of an operation and the
    slots of the storage.  Numbers are the integer-valued ones (logical
    times, depths) and [NaN]. *)
Inductive jsval : Type :=
| VUndefined
| VNull
| VNaN
| VNum (n : Z)
| VStr (s : string)
| VIdent (i : Ident.t).

(** String conversion as a template literal performs it ([`${v}`]). *)
Definition ToString (v : jsval) : string :=
  match v with
  | VUndefined => "undefined"
  | VNull => "null"
  | VNaN => "NaN"
  | VNum n => Js.Z_to_string n
  | VStr s => s
  | VIdent i => Ident.toString i
  end.

(** The method call [v.toString()]: a [TypeError] on [undefined] and
    [null], which have no properties. *)
Definition toString_method (v : jsval) : outcome string :=
  match v with
  | VUndefined | VNull => Throw TypeError
  | _ => Ret (ToString v)
  end.

(** [Number(s)] on a string, for the integer literals: the empty string
    is 0, an optional sign is followed by decimal digits, any other text
    is [NaN].  (Fractions, exponents, radix prefixes and surrounding
    white space lie outside the integer-valued numbers kept here.) *)
Definition StringToNumber (s : string) : jsval :=
  match s with
  | EmptyString => VNum 0
  | String c r =>
      if Ascii.eqb c "-" then
        match NilZero.uint_of_string r with
        | Some u => VNum (- Z.of_uint u)
        | None => VNaN
        end
      else if Ascii.eqb c "+" then
        match NilZero.uint_of_string r with
        | Some u => VNum (Z.of_uint u)
        | None => VNaN
        end
      else
        match NilZero.uint_of_string s with
        | Some u => VNum (Z.of_uint u)
        | None => VNaN
        end
  end.

(** [Number(x)] where [x] comes out of a destructured [split]: a string
    or [undefined], and [Number(undefined)] is [NaN]. *)
Definition Number (x : option string) : jsval :=
  match x with
  | None => VNaN
  | Some s => StringToNumber s
  end.

Definition of_elem (x : option string) : jsval :=
  match x with
  | None => VUndefined
  | Some s => VStr s
  end.

(** ** Op.ts *)

Module OpKind.
Definition Insert : Z := 1.
Definition Remove : Z := 2.
End OpKind.

(** An [Op] object.  [kind] is the numeric enum member; [id] and
    [value] are the fields the two subclasses add (a [RemoveOp] has no
    [value] property, which reads as [undefined]). *)
Record Op : Type := mkOp {
  kind : Z;
  replica : jsval;
  time : jsval;
  id : jsval;
  value : jsval
}.

(** The n-th actual argument of a call; a parameter without an actual
    argument is [undefined]. *)
Definition arg (args : list jsval) (n : nat) : jsval := nth n args VUndefined.

(** [new InsertOp(replica, time, id, value)]. *)
Definition InsertOp_new (args : list jsval) : Op :=
  {| kind := OpKind.Insert;
     replica := arg args 0;
     time := arg args 1;
     id := arg args 2;
     value := arg args 3 |}.

(** [new RemoveOp(replica, time, id)]. *)
Definition RemoveOp_new (args : list jsval) : Op :=
  {| kind := OpKind.Remove;
     replica := arg args 0;
     time := arg args 1;
     id := arg args 2;
     value := VUndefined |}.

Local Open Scope js_scope.

(** [InsertOp.prototype.toString]. *)
Definition InsertOp_toString (op : Op) : outcome string :=
  idstr <- toString_method (id op) ;;
  valstr <- toString_method (value op) ;;
  Ret ("+" ++ ToString (replica op) ++ ":" ++ ToString (time op) ++ ":"
           ++ idstr ++ ":" ++ valstr).

(** [RemoveOp.prototype.toString]. *)
Definition RemoveOp_toString (op : Op) : outcome string :=
  idstr <- toString_method (id op) ;;
  Ret ("-" ++ ToString (replica op) ++ ":" ++ ToString (time op) ++ ":" ++ idstr).

(** [InsertOp.parse], [RemoveOp.parse] and [Op.parse] call
    [Ident.parse]; it is a parameter here so that what they do with its
    result is stated for any identifier parser. *)
Definition InsertOp_parse (Ident_parse : string -> outcome Ident.t) (str : string)
  : outcome Op :=
  let parts := Js.split ":" (Js.substr1 str) in
  let replica := Js.elem parts 0 in
  let time := Js.elem parts 1 in
  let value := Js.elem parts 3 in
  i <- Ident_parse str ;;
  Ret (InsertOp_new [of_elem replica; Number time; VIdent i; of_elem value]).

Definition RemoveOp_parse (Ident_parse : string -> outcome Ident.t) (str : string)
  : outcome Op :=
  let parts := Js.split ":" (Js.substr1 str) in
  let replica := Js.elem parts 0 in
  let time := Js.elem parts 1 in
  i <- Ident_parse str ;;
  Ret (RemoveOp_new [of_elem replica; Number time; VIdent i]).

(** [Op.parse]: the [switch] has no [default], so for any other leading
    character control falls off the end of the function and the call
    returns [undefined], here [None]. *)
Definition Op_parse (Ident_parse : string -> outcome Ident.t) (str : string)
  : outcome (option Op) :=
  match Js.char0 str with
  | Some "+"%char => op <- InsertOp_parse Ident_parse str ;; Ret (Some op)
  | Some "-"%char => op <- RemoveOp_parse Ident_parse str ;; Ret (Some op)
  | _ => Ret None
  end.

(** ** Storage and identifier generation, as [Sequence.ts] uses them *)

(** Modelled from the spec: [Atom] of [src/storage], which is missing:
    an identifier with the value filed under it ([null] for the two
    bookends). *)
Record Atom : Type := mkAtom {
  atom_id : Ident.t;
  atom_value : jsval
}.

(** Modelled from the spec: the [Storage<T>] interface of
    [src/storage], which is missing, limited to the members
    [Sequence.ts] calls.  A storage is a mutable object, so [add] and [remove] hand
    back the storage they leave behind, together with how the call
    ended; [get] answers [None] for [undefined]. *)
Class Storage (St : Type) : Type := {
  Storage_size : St -> Z;
  Storage_get : St -> Z -> option Atom;
  Storage_add : St -> jsval -> jsval -> outcome unit * St;
  Storage_remove : St -> jsval -> outcome unit * St;
  Storage_map : forall {R : Type}, (Atom -> R) -> St -> list R
}.

(** Modelled from the spec: the [IdentGenerator] interface of
    [src/idents], which is missing: the pair of bookends, and the
    allocation of an identifier between two neighbours, which may
    advance the generator (counters, random source, direction memory). *)
Class IdentGenerator (G : Type) : Type := {
  getBookends : G -> Ident.t * Ident.t;
  getIdent : G -> Ident.t -> Ident.t -> outcome Ident.t * G
}.

Module ArrayStorage.

(** Modelled from the spec: [ArrayStorage] of [src/storage], which is
    missing: the atoms are kept in an array in ascending identifier
    order. *)
Definition t : Type := list Atom.

(** Modelled from the spec: [new ArrayStorage()] of [src/storage],
    which is missing: no atoms. *)
Definition empty : t := [].

(** Modelled from the spec: [ArrayStorage.size] of [src/storage], which
    is missing: the total atom count, the bookends included. *)
Definition size (l : t) : Z := Z.of_nat (List.length l).

(** Modelled from the spec: [ArrayStorage.get] of [src/storage], which
    is missing: the atom at zero-based position [pos] counting the
    bookends, and not-found out of range. *)
Definition get (l : t) (pos : Z) : option Atom :=
  if pos <? 0 then None else nth_error l (Z.to_nat pos).

(** Modelled from the spec: the insertion behind [ArrayStorage.add]
    of [src/storage], which is missing: [add(id, value)] inserts an
    atom keeping the ascending identifier order and does nothing when
    [id] is already present. *)
Fixpoint insert_atom (i : Ident.t) (v : jsval) (l : t) : t :=
  match l with
  | [] => [mkAtom i v]
  | a :: l' =>
      match Ident.compare i (atom_id a) with
      | Lt => mkAtom i v :: a :: l'
      | Eq => a :: l'
      | Gt => a :: insert_atom i v l'
      end
  end.

(** Modelled from the spec: the deletion behind [ArrayStorage.remove]
    of [src/storage], which is missing: [remove(id)] deletes the atom
    with that id if present and does nothing when it is absent. *)
Fixpoint delete_atom (i : Ident.t) (l : t) : t :=
  match l with
  | [] => []
  | a :: l' =>
      match Ident.compare i (atom_id a) with
      | Eq => l'
      | _ => a :: delete_atom i l'
      end
  end.

(** Modelled from the spec: [ArrayStorage.add] of [src/storage], which
    is missing.  The spec describes [add] and [remove] on identifiers
    only.  An [id] that is not an identifier has no segments to compare
    with the stored ones; the comparison dereferences it, which is a
    [TypeError], and the array is left as it was. *)
Definition add (l : t) (i v : jsval) : outcome unit * t :=
  match i with
  | VIdent i' => (Ret tt, insert_atom i' v l)
  | _ => (Throw TypeError, l)
  end.

(** Modelled from the spec: [ArrayStorage.remove] of [src/storage],
    which is missing; an [id] that is not an identifier is treated as
    in [add]. *)
Definition remove (l : t) (i : jsval) : outcome unit * t :=
  match i with
  | VIdent i' => (Ret tt, delete_atom i' l)
  | _ => (Throw TypeError, l)
  end.

(** Modelled from the spec: the atoms [forEach] and [map] of
    [src/storage], which is missing, traverse.  The storage has two
    permanent bounds: position 0 is always the low sentinel, the last
    position the high one, and the projections built on the traversal
    leave the sentinels out; so the traversal covers the atoms between
    the first and the last position. *)
Definition inner (l : t) : list Atom := removelast (tl l).

(** Modelled from the spec: [ArrayStorage.map] of [src/storage], which
    is missing: [map] traverses the atoms between the two bounds in
    ascending order. *)
Definition map {R : Type} (f : Atom -> R) (l : t) : list R := List.map f (inner l).

End ArrayStorage.

#[export] Instance ArrayStorage_Storage : Storage ArrayStorage.t := {
  Storage_size := ArrayStorage.size;
  Storage_get := ArrayStorage.get;
  Storage_add := ArrayStorage.add;
  Storage_remove := ArrayStorage.remove;
  Storage_map := @ArrayStorage.map
}.

Module ScriptedGenerator.

(** A generator as a caller can pass it for the constructor's third
    parameter: the bookends are fixed and [getIdent] hands out the
    identifiers of a prepared script one after the other. *)
Record t : Type := mk {
  first : Ident.t;
  last : Ident.t;
  script : list Ident.t
}.

Definition bookends (g : t) : Ident.t * Ident.t := (first g, last g).

Definition next (g : t) (low high : Ident.t) : outcome Ident.t * t :=
  match script g with
  | i :: rest => (Ret i, mk (first g) (last g) rest)
  | [] => (Throw (Error "script exhausted"), g)
  end.

End ScriptedGenerator.

#[export] Instance ScriptedGenerator_IdentGenerator : IdentGenerator ScriptedGenerator.t := {
  getBookends := ScriptedGenerator.bookends;
  getIdent := ScriptedGenerator.next
}.

(** ** Sequence.ts *)

Module Sequence.

Section Methods.

Context {St G : Type} `{Storage St} `{IdentGenerator G}.

(** A [Sequence] object.  [maxDepth] is declared but assigned nowhere
    in the constructor, so it starts out [undefined], here [None]. *)
Record t : Type := mk {
  replica : string;
  maxDepth : option Z;
  storage : St;
  idGenerator : G
}.

(** Methods read and write [this] and may throw: a method is a function
    from the object before the call to how the call ended and the
    object after it. *)
Definition M (A : Type) : Type := t -> outcome A * t.

Definition ret {A : Type} (a : A) : M A := fun s => (Ret a, s).

Definition throw {A : Type} (e : error) : M A := fun s => (Throw e, s).

Definition mbind {A B : Type} (m : M A) (f : A -> M B) : M B :=
  fun s =>
    match m s with
    | (Ret a, s') => f a s'
    | (Throw e, s') => (Throw e, s')
    end.

Notation "x <~ m ;; k" := (mbind m (fun x => k))
  (at level 61, m at next level, right associativity).

(** [this.storage.get(pos)]. *)
Definition storage_get (pos : Z) : M (option Atom) :=
  fun s => (Ret (Storage_get (storage s) pos), s).

(** [this.storage.add(id, value)]. *)
Definition storage_add (i v : jsval) : M unit :=
  fun s =>
    let (r, st') := Storage_add (storage s) i v in
    (r, mk (replica s) (maxDepth s) st' (idGenerator s)).

(** [this.storage.remove(id)]. *)
Definition storage_remove (i : jsval) : M unit :=
  fun s =>
    let (r, st') := Storage_remove (storage s) i in
    (r, mk (replica s) (maxDepth s) st' (idGenerator s)).

(** [this.idGenerator.getIdent(low, high)]. *)
Definition generator_getIdent (low high : Ident.t) : M Ident.t :=
  fun s =>
    let (r, g') := getIdent (idGenerator s) low high in
    (r, mk (replica s) (maxDepth s) (storage s) g').

(** [atom.id] on the result of [storage.get]: a [TypeError] when that
    result is [undefined]. *)
Definition atom_id_of (a : option Atom) : M Ident.t :=
  match a with
  | Some a' => ret (atom_id a')
  | None => throw TypeError
  end.

(** [this.maxDepth < d]: [undefined] converts to [NaN], and every
    comparison with [NaN] is false. *)
Definition maxDepth_lt (m : option Z) (d : Z) : bool :=
  match m with
  | Some n => n <? d
  | None => false
  end.

(** [if (this.maxDepth < d) this.maxDepth = d]. *)
Definition track_depth (d : Z) : M unit :=
  fun s =>
    if maxDepth_lt (maxDepth s) d
    then (Ret tt, mk (replica s) (Some d) (storage s) (idGenerator s))
    else (Ret tt, s).

(** The constructor, with the storage and the generator it is given
    (its second and third parameter). *)
Definition new (replica : string) (storage : St) (idGenerator : G) : outcome t :=
  let (first, last) := getBookends idGenerator in
  match Storage_add storage (VIdent first) VNull with
  | (Throw e, _) => Throw e
  | (Ret _, st1) =>
      match Storage_add st1 (VIdent last) VNull with
      | (Throw e, _) => Throw e
      | (Ret _, st2) => Ret (mk replica None st2 idGenerator)
      end
  end.

Definition size (s : t) : Z := Storage_size (storage s) - 2.

(** [depth()] returns [this.maxDepth]: a number or [undefined]. *)
Definition depth (s : t) : option Z := maxDepth s.

Definition apply (op : Op) : M unit :=
  if kind op =? OpKind.Insert then storage_add (id op) (value op)
  else if kind op =? OpKind.Remove then storage_remove (id op)
  else throw (Error ("Unknown op kind " ++ Js.Z_to_string (kind op))).

(** [insert]: note the two actual arguments of [new InsertOp(id, value)]
    against the constructor's four parameters. *)
Definition insert (v : jsval) (pos : Z) : M Op :=
  before <~ storage_get pos ;;
  after <~ storage_get (pos + 1) ;;
  low <~ atom_id_of before ;;
  high <~ atom_id_of after ;;
  i <~ generator_getIdent low high ;;
  let op := InsertOp_new [VIdent i; v] in
  _ <~ apply op ;;
  _ <~ track_depth (Ident.getDepth i) ;;
  ret op.

Definition append (v : jsval) : M Op :=
  fun s => insert v (size s) s.

(** [remove]: [null] is [None]. *)
Definition remove (pos : Z) : M (option Op) :=
  atom <~ storage_get pos ;;
  match atom with
  | Some a =>
      let op := RemoveOp_new [VIdent (atom_id a)] in
      _ <~ apply op ;;
      ret (Some op)
  | None => ret None
  end.

Definition get (pos : Z) (s : t) : jsval :=
  match Storage_get (storage s) (pos + 1) with
  | Some a => atom_value a
  | None => VUndefined
  end.

Definition toArray (s : t) : list jsval :=
  Storage_map atom_value (storage s).

(** The object [toJSON] returns. *)
Record JSON : Type := mkJSON {
  r : string;
  d : list (string * jsval)
}.

Definition toJSON (s : t) : JSON :=
  {| r := replica s;
     d := Storage_map (fun atom => (Ident.toString (atom_id atom), atom_value atom))
                      (storage s) |}.

(** [map(func)], for a callback that computes its result from the
    value. *)
Definition map {R : Type} (func : jsval -> R) (s : t) : list R :=
  Storage_map (fun atom => func (atom_value atom)) (storage s).

End Methods.

Arguments t St G : clear implicits.

End Sequence.

(** ** Sequences of public operations *)

(** A call of one of the mutating public methods. *)
Inductive call : Type :=
| CInsert (v : jsval) (pos : Z)
| CAppend (v : jsval)
| CRemove (pos : Z)
| CApply (op : Op).

Section Runs.

Context {St G : Type} `{Storage St} `{IdentGenerator G}.

(** The object a call leaves behind, whether it returned or threw (a
    caller that catches the exception goes on with that object). *)
Definition step (s : Sequence.t St G) (c : call) : Sequence.t St G :=
  match c with
  | CInsert v pos => snd (Sequence.insert v pos s)
  | CAppend v => snd (Sequence.append v s)
  | CRemove pos => snd (Sequence.remove pos s)
  | CApply op => snd (Sequence.apply op s)
  end.

Definition run (calls : list call) (s : Sequence.t St G) : Sequence.t St G :=
  fold_left step calls s.

End Runs.

(** ** Vocabulary of the statements *)

(** [c] occurs in [s]. *)
Fixpoint contains (c : ascii) (s : string) : bool :=
  match s with
  | EmptyString => false
  | String a s' => Ascii.eqb a c || contains c s'
  end.

(** Integers a number holds exactly, [Number.MAX_SAFE_INTEGER] in
    absolute value at most; their string conversion is the plain
    decimal one. *)
Definition safe_integer (z : Z) : Prop := Z.abs z <= 9007199254740991.

Definition Ident_lt (a b : Ident.t) : Prop := Ident.compare a b = Lt.

Definition is_bookend (first last i : Ident.t) : bool :=
  match Ident.compare i first, Ident.compare i last with
  | Eq, _ => true
  | _, Eq => true
  | _, _ => false
  end.

(** The atoms that are not bookends: the user values. *)
Definition user_atoms (first last : Ident.t) (l : list Atom) : list Atom :=
  filter (fun a => negb (is_bookend first last (atom_id a))) l.

(** A call that applies a remove operation naming a bookend. *)
Definition removes_bookend (first last : Ident.t) (c : call) : bool :=
  match c with
  | CApply op =>
      (kind op =? OpKind.Remove) &&
      match id op with
      | VIdent i => is_bookend first last i
      | _ => false
      end
  | _ => false
  end.




(** Both bookends are stored with [null], and nothing but [null] is
    stored under a bookend identifier. *)
Definition kept (first last : Ident.t) (l : list Atom) : Prop :=
  In (mkAtom first VNull) l /\ In (mkAtom last VNull) l /\
  (forall a, In a l -> is_bookend first last (atom_id a) = true -> atom_value a = VNull).

(** The bookends are kept, and [size()] counts the user values. *)
Definition bookends_intact {G : Type} (first last : Ident.t)
  (s : Sequence.t ArrayStorage.t G) : Prop :=
  kept first last (Sequence.storage s) /\
  Sequence.size s = Z.of_nat (List.length (user_atoms first last (Sequence.storage s))).


(** Atoms in ascending identifier order. *)
Definition atom_lt (a b : Atom) : Prop := Ident_lt (atom_id a) (atom_id b).

Definition ascending (l : list Atom) : Prop := StronglySorted atom_lt l.

(** An identifier is stored in an array. *)
Definition stored (i : Ident.t) (l : list Atom) : Prop :=
  exists b, In b l /\ atom_id b = i.

(** The array an applied operation leaves behind ([Sequence.apply] on
    the array storage): an insert or remove with an identifier for an
    id goes through [add] or [remove]; a call that throws -- an id that
    is not an identifier, an unknown kind -- leaves the array alone. *)
Definition applied (op : Op) (l : list Atom) : list Atom :=
  match id op with
  | VIdent i =>
      if kind op =? OpKind.Insert then ArrayStorage.insert_atom i (value op) l
      else if kind op =? OpKind.Remove then ArrayStorage.delete_atom i l
      else l
  | _ => l
  end.

(** The law of a storage whose [map] calls its callback once per atom,
    in one fixed order of the atoms. *)
Definition map_visits_atoms (St : Type) `{Storage St} : Prop :=
  forall (R : Type) (f : Atom -> R) (st : St),
    Storage_map f st = List.map f (Storage_map (fun a => a) st).

(** The text before the first colon of [s] (all of [s] when it has
    none). *)
Fixpoint before_colon (s : string) : string :=
  match s with
  | EmptyString => EmptyString
  | String a s' => if Ascii.eqb a ":" then EmptyString else String a (before_colon s')
  end.

(** ** A small replica, for the worked cases *)

Module Sample.

Definition MIN : Ident.t := [Ident.mkSegment 0 ""].
Definition MAX : Ident.t := [Ident.mkSegment 31 ""].
Definition x_id : Ident.t := [Ident.mkSegment 7 "A"].
Definition y_id : Ident.t := [Ident.mkSegment 19 "A"].

(** The generator of replica A: the bookends at positions 0 and 31 of
    the first level, and the two identifiers it will hand out. *)
Definition generator : ScriptedGenerator.t :=
  ScriptedGenerator.mk MIN MAX [x_id; y_id].

(** The sequence [new Sequence("A", new ArrayStorage(), generator)]
    leaves behind. *)
Definition fresh : Sequence.t ArrayStorage.t ScriptedGenerator.t :=
  Sequence.mk "A" None [mkAtom MIN VNull; mkAtom MAX VNull] generator.

(** Well-formed operations as another replica sends them. *)
Definition insert_x : Op := InsertOp_new [VStr "A"; VNum 1; VIdent x_id; VStr "x"].
Definition insert_y : Op := InsertOp_new [VStr "A"; VNum 2; VIdent y_id; VStr "y"].
Definition remove_MIN : Op := RemoveOp_new [VStr "B"; VNum 1; VIdent MIN].

(** An identifier of depth 2 and the remote insert that carries it. *)
Definition deep_id : Ident.t := [Ident.mkSegment 7 "A"; Ident.mkSegment 3 "B"].
Definition insert_deep : Op := InsertOp_new [VStr "B"; VNum 2; VIdent deep_id; VStr "w"].

(** An identifier parser that looks for the identifier in the third
    colon-separated field of an operation's text. *)
Definition field_parse (str : string) : outcome Ident.t :=
  Ident.parse (nth 2 (Js.split ":" (Js.substr1 str)) EmptyString).

(** A sequence whose [maxDepth] holds the number 1. *)
Definition shallow : Sequence.t ArrayStorage.t ScriptedGenerator.t :=
  Sequence.mk "A" (Some 1) [mkAtom MIN VNull; mkAtom MAX VNull] generator.

End Sample.

(** * Properties *)

(** ** Strings and numbers *)

Lemma split_app_sep (c : ascii) (a b : string) :
  contains c a = false ->
  Js.split c (a ++ String c b) = a :: Js.split c b.
Proof.
  induction a as [|x a IH]; simpl; intros Hc.
  - now rewrite Ascii.eqb_refl.
  - apply orb_false_iff in Hc as [Hx Ha].
    rewrite Hx, (IH Ha). reflexivity.
Qed.

Lemma split_no_sep (c : ascii) (a : string) :
  contains c a = false -> Js.split c a = [a].
Proof.
  induction a as [|x a IH]; simpl; intros Hc; [reflexivity|].
  apply orb_false_iff in Hc as [Hx Ha].
  rewrite Hx, (IH Ha). reflexivity.
Qed.

Lemma split_pieces_clean (c : ascii) (s : string) :
  Forall (fun p => contains c p = false) (Js.split c s).
Proof.
  induction s as [|x s IH]; simpl.
  - repeat constructor.
  - destruct (Ascii.eqb x c) eqn:Hx.
    + constructor; [reflexivity | exact IH].
    + destruct (Js.split c s) as [|h t]; inversion IH; subst;
        constructor; simpl; try rewrite Hx; auto.
Qed.

Lemma digits_no_colon (d : Decimal.uint) :
  contains ":" (NilEmpty.string_of_uint d) = false.
Proof. induction d; simpl; auto. Qed.

Lemma Z_to_string_no_colon (z : Z) : contains ":" (Js.Z_to_string z) = false.
Proof.
  unfold Js.Z_to_string, NilZero.string_of_int, NilZero.string_of_uint.
  destruct (Z.to_int z) as [d|d]; destruct d; simpl;
    try reflexivity; apply digits_no_colon.
Qed.

Lemma digits_head (d : Decimal.uint) :
  d <> Decimal.Nil ->
  exists c r, NilEmpty.string_of_uint d = String c r /\
              Ascii.eqb c "-" = false /\ Ascii.eqb c "+" = false.
Proof.
  destruct d; [congruence | ..]; intros _; simpl; eauto.
Qed.

Lemma positive_digits (p : positive) :
  NilZero.uint_of_string (NilZero.string_of_uint (Pos.to_uint p)) = Some (Pos.to_uint p).
Proof. apply NilZero.usu, DecimalPos.Unsigned.to_uint_nonnil. Qed.

Lemma Z_of_positive_digits (p : positive) : Z.of_uint (Pos.to_uint p) = Z.pos p.
Proof. unfold Z.of_uint. now rewrite DecimalPos.Unsigned.of_to. Qed.

(** [Number] reads back the decimal text of an integer. *)
Lemma StringToNumber_Z_to_string (z : Z) : StringToNumber (Js.Z_to_string z) = VNum z.
Proof.
  destruct z as [|p|p]; [reflexivity | |].
  - unfold Js.Z_to_string. simpl Z.to_int. simpl NilZero.string_of_int.
    pose proof (positive_digits p) as Hd.
    destruct (digits_head (Pos.to_uint p)) as (c & r & Hs & Hm & Hp);
      [apply DecimalPos.Unsigned.to_uint_nonnil|].
    assert (Hz : NilZero.string_of_uint (Pos.to_uint p) = String c r).
    { rewrite <- Hs. unfold NilZero.string_of_uint.
      destruct (Pos.to_uint p) eqn:E; try reflexivity.
      now apply DecimalPos.Unsigned.to_uint_nonnil in E. }
    rewrite Hz in *. unfold StringToNumber. rewrite Hm, Hp, Hd.
    now rewrite Z_of_positive_digits.
  - unfold Js.Z_to_string. simpl Z.to_int. simpl NilZero.string_of_int.
    unfold StringToNumber. rewrite Ascii.eqb_refl, positive_digits.
    now rewrite Z_of_positive_digits.
Qed.

(** ** The operation codec *)

Lemma InsertOp_toString_text (r : string) (t : Z) (i : Ident.t) (v : string) :
  InsertOp_toString (InsertOp_new [VStr r; VNum t; VIdent i; VStr v]) =
  Ret (String "+" (r ++ String ":" (Js.Z_to_string t ++
         String ":" (Ident.toString i ++ String ":" v)))).
Proof. reflexivity. Qed.

Lemma RemoveOp_toString_text (r : string) (t : Z) (i : Ident.t) :
  RemoveOp_toString (RemoveOp_new [VStr r; VNum t; VIdent i]) =
  Ret (String "-" (r ++ String ":" (Js.Z_to_string t ++
         String ":" (Ident.toString i)))).
Proof. reflexivity. Qed.

(** The fields [split] recovers from the text of an insert operation. *)
Lemma split_insert_text (r ts ids v : string) :
  contains ":" r = false -> contains ":" ts = false ->
  contains ":" ids = false -> contains ":" v = false ->
  Js.split ":" (r ++ String ":" (ts ++ String ":" (ids ++ String ":" v))) = [r; ts; ids; v].
Proof.
  intros Hr Ht Hi Hv.
  now rewrite !split_app_sep, split_no_sep.
Qed.

Lemma split_remove_text (r ts ids : string) :
  contains ":" r = false -> contains ":" ts = false -> contains ":" ids = false ->
  Js.split ":" (r ++ String ":" (ts ++ String ":" ids)) = [r; ts; ids].
Proof.
  intros Hr Ht Hi.
  now rewrite !split_app_sep, split_no_sep.
Qed.

(** C5 (as the code has it).  For an insert or remove operation whose
    replica and value are strings without a colon, whose time is a safe
    integer and whose identifier text has no colon, [Op.parse] of the
    operation's [toString()] recovers the kind, the replica, the time
    and the value, but hands the whole encoded text -- not the id field
    it has just split off -- to [Ident.parse]: the id of the result is
    whatever the identifier parser makes of the whole text, and its
    exception is the exception of the call. *)
Theorem Op_parse_toString_id_from_whole_text :
  forall (P : string -> outcome Ident.t) (r : string) (t : Z) (i : Ident.t) (v : string),
    contains ":" r = false ->
    safe_integer t ->
    contains ":" (Ident.toString i) = false ->
    contains ":" v = false ->
    (exists str,
        InsertOp_toString (InsertOp_new [VStr r; VNum t; VIdent i; VStr v]) = Ret str /\
        Op_parse P str =
          (i' <- P str ;; Ret (Some (InsertOp_new [VStr r; VNum t; VIdent i'; VStr v])))%js) /\
    (exists str,
        RemoveOp_toString (RemoveOp_new [VStr r; VNum t; VIdent i]) = Ret str /\
        Op_parse P str =
          (i' <- P str ;; Ret (Some (RemoveOp_new [VStr r; VNum t; VIdent i'])))%js).
Proof.
  intros P r t i v Hr _ Hi Hv.
  pose proof (Z_to_string_no_colon t) as Ht.
  split; eexists; split;
    [apply InsertOp_toString_text | | apply RemoveOp_toString_text |].
  - unfold Op_parse, InsertOp_parse. cbn [Js.char0 Js.substr1].
    rewrite (split_insert_text _ _ _ _ Hr Ht Hi Hv).
    cbn [Js.elem nth_error Number of_elem]. rewrite StringToNumber_Z_to_string.
    destruct (P _); reflexivity.
  - unfold Op_parse, RemoveOp_parse. cbn [Js.char0 Js.substr1].
    rewrite (split_remove_text _ _ _ Hr Ht Hi).
    cbn [Js.elem nth_error Number of_elem]. rewrite StringToNumber_Z_to_string.
    destruct (P _); reflexivity.
Qed.

Lemma Op_parse_toString_id_from_whole_text_witness :
  exists str,
    InsertOp_toString
      (InsertOp_new [VStr "A"; VNum 1; VIdent [Ident.mkSegment 7 "A"]; VStr "x"]) = Ret str /\
    Op_parse Ident.parse str =
      (i' <- Ident.parse str ;;
       Ret (Some (InsertOp_new [VStr "A"; VNum 1; VIdent i'; VStr "x"])))%js.
Proof.
  apply (Op_parse_toString_id_from_whole_text Ident.parse "A" 1
           [Ident.mkSegment 7 "A"] "x");
    [reflexivity | unfold safe_integer; simpl; lia | reflexivity | reflexivity].
Defined.

(** With the identifier parser of the spec, which rejects malformed
    identifier text, the round trip of a well-formed insert operation
    ends in that parser's decode error. *)
Example Op_parse_toString_decode_error :
  InsertOp_toString
    (InsertOp_new [VStr "A"; VNum 1; VIdent [Ident.mkSegment 7 "A"]; VStr "x"])
    = Ret "+A:1:7,A:x" /\
  Op_parse Ident.parse "+A:1:7,A:x" = Throw DecodeError /\
  Ident.parse "7,A" = Ret [Ident.mkSegment 7 "A"].
Proof. repeat split. Qed.

(** C7 (amended).  For every input whose leading character is neither
    [+] nor [-], the empty string included, [Op.parse] returns
    [undefined] and throws nothing. *)
Theorem Op_parse_unknown_sigil_undefined :
  forall (P : string -> outcome Ident.t) (str : string),
    Js.char0 str <> Some "+"%char ->
    Js.char0 str <> Some "-"%char ->
    Op_parse P str = Ret None.
Proof.
  intros P str Hp Hm. unfold Op_parse.
  destruct (Js.char0 str) as [c|]; [|reflexivity].
  destruct c as [[] [] [] [] [] [] [] []]; try reflexivity; congruence.
Qed.

Lemma Op_parse_unknown_sigil_undefined_witness :
  Op_parse Ident.parse "?A:1:7,A:x" = Ret None.
Proof.
  apply (Op_parse_unknown_sigil_undefined Ident.parse "?A:1:7,A:x");
    simpl; discriminate.
Defined.

(** C7 as stated fails: on a text with an unknown sigil the call ends
    normally, with [undefined], and with no error at all. *)
Lemma Op_parse_unknown_sigil_no_error :
  Js.char0 "?A:1:7,A:x" <> Some "+"%char /\
  Js.char0 "?A:1:7,A:x" <> Some "-"%char /\
  ~ (exists e, Op_parse Ident.parse "?A:1:7,A:x" = Throw e).
Proof.
  repeat split; try (simpl; discriminate).
  intros [e He]. discriminate He.
Qed.

(** ** The Sequence facade, for any storage and any generator *)

(** Unfolds a method down to the calls on the storage and the generator. *)
Ltac run_method :=
  unfold Sequence.insert, Sequence.remove, Sequence.append, Sequence.apply,
    Sequence.mbind, Sequence.storage_get, Sequence.atom_id_of,
    Sequence.generator_getIdent, Sequence.storage_add, Sequence.storage_remove,
    Sequence.track_depth, Sequence.ret, Sequence.throw;
  cbn [fst snd].

Section Facade.

Context {St G : Type} `{Storage St} `{IdentGenerator G}.

Implicit Types (s : Sequence.t St G) (op : Op).

(** C8.  [apply] dispatches on [op.kind]: an insert hands [op.id] and
    [op.value] to [storage.add], a remove hands [op.id] to
    [storage.remove], and every other kind ends in a thrown [Error]
    that leaves the sequence as it was. *)
Theorem apply_dispatches_on_kind :
  forall op s,
    (kind op = OpKind.Insert ->
     Sequence.apply op s =
       (fst (Storage_add (Sequence.storage s) (id op) (value op)),
        Sequence.mk (Sequence.replica s) (Sequence.maxDepth s)
          (snd (Storage_add (Sequence.storage s) (id op) (value op)))
          (Sequence.idGenerator s))) /\
    (kind op = OpKind.Remove ->
     Sequence.apply op s =
       (fst (Storage_remove (Sequence.storage s) (id op)),
        Sequence.mk (Sequence.replica s) (Sequence.maxDepth s)
          (snd (Storage_remove (Sequence.storage s) (id op)))
          (Sequence.idGenerator s))) /\
    (kind op <> OpKind.Insert -> kind op <> OpKind.Remove ->
     Sequence.apply op s =
       (Throw (Error ("Unknown op kind " ++ Js.Z_to_string (kind op))), s)).
Proof.
  intros op s. repeat split.
  - intros Hk. run_method. rewrite Hk. simpl. now destruct (Storage_add _ _ _).
  - intros Hk. run_method. rewrite Hk. simpl. now destruct (Storage_remove _ _).
  - intros Hi Hr. run_method.
    destruct (Z.eqb_spec (kind op) OpKind.Insert); [contradiction|].
    destruct (Z.eqb_spec (kind op) OpKind.Remove); [contradiction|].
    reflexivity.
Qed.

(** What [apply] leaves alone. *)
Lemma apply_keeps_fields :
  forall op s,
    Sequence.replica (snd (Sequence.apply op s)) = Sequence.replica s /\
    Sequence.maxDepth (snd (Sequence.apply op s)) = Sequence.maxDepth s /\
    Sequence.depth (snd (Sequence.apply op s)) = Sequence.depth s /\
    Sequence.idGenerator (snd (Sequence.apply op s)) = Sequence.idGenerator s.
Proof.
  intros op s. unfold Sequence.depth. run_method.
  destruct (kind op =? OpKind.Insert);
    [destruct (Storage_add _ _ _); simpl; auto|].
  destruct (kind op =? OpKind.Remove);
    [destruct (Storage_remove _ _); simpl; auto|].
  simpl; auto.
Qed.

(** C10.  [apply] writes the storage only: the replica id, [maxDepth]
    (hence [depth()]) and the generator are the same after every call,
    whatever the operation and however the call ends -- also for an
    insert operation whose identifier is deeper than [maxDepth] -- and
    so they are after any number of applied operations. *)
Theorem apply_frame :
  forall op s,
    (Sequence.replica (snd (Sequence.apply op s)) = Sequence.replica s /\
     Sequence.maxDepth (snd (Sequence.apply op s)) = Sequence.maxDepth s /\
     Sequence.depth (snd (Sequence.apply op s)) = Sequence.depth s /\
     Sequence.idGenerator (snd (Sequence.apply op s)) = Sequence.idGenerator s) /\
    (forall ops,
       Sequence.replica (run (List.map CApply ops) s) = Sequence.replica s /\
       Sequence.maxDepth (run (List.map CApply ops) s) = Sequence.maxDepth s /\
       Sequence.depth (run (List.map CApply ops) s) = Sequence.depth s /\
       Sequence.idGenerator (run (List.map CApply ops) s) = Sequence.idGenerator s).
Proof.
  intros op s. split; [apply apply_keeps_fields|].
  intros ops. revert s.
  induction ops as [|o ops IH]; intros s; [repeat split|].
  cbn [List.map run fold_left step].
  destruct (IH (snd (Sequence.apply o s))) as (Hr & Hm & Hd & Hg).
  destruct (apply_keeps_fields o s) as (Hr' & Hm' & Hd' & Hg').
  unfold run in *.
  repeat split; etransitivity; eassumption.
Qed.

(** The depth an insert would record when [maxDepth] holds a number. *)
Lemma track_depth_max (d m : Z) s :
  Sequence.maxDepth s = Some m ->
  Sequence.maxDepth (snd (Sequence.track_depth d s)) = Some (Z.max m d).
Proof.
  intros Hm. unfold Sequence.track_depth, Sequence.maxDepth_lt. rewrite Hm.
  destruct (Z.ltb_spec m d); simpl; [f_equal; lia | rewrite Hm; f_equal; lia].
Qed.

Lemma track_depth_undefined (d : Z) s :
  Sequence.maxDepth s = None -> Sequence.track_depth d s = (Ret tt, s).
Proof. intros Hm. unfold Sequence.track_depth. now rewrite Hm. Qed.

(** C1 (as the code has it).  When both neighbours resolve and the
    generator returns [i], [insert(v, pos)] builds its operation with
    [new InsertOp(i, v)]: the replica field holds the identifier, the
    time field holds the value, the id and value fields are
    [undefined]; it is [(undefined, undefined)] that reaches
    [storage.add], and the call ends as that [add] ends. *)
Theorem insert_misplaces_constructor_arguments :
  forall s v pos before after i g',
    Storage_get (Sequence.storage s) pos = Some before ->
    Storage_get (Sequence.storage s) (pos + 1) = Some after ->
    getIdent (Sequence.idGenerator s) (atom_id before) (atom_id after) = (Ret i, g') ->
    Sequence.insert v pos s =
      (match fst (Storage_add (Sequence.storage s) VUndefined VUndefined) with
       | Ret _ => Ret (mkOp OpKind.Insert (VIdent i) v VUndefined VUndefined)
       | Throw e => Throw e
       end,
       Sequence.mk (Sequence.replica s)
         (if Sequence.maxDepth_lt (Sequence.maxDepth s) (Ident.getDepth i)
          then match fst (Storage_add (Sequence.storage s) VUndefined VUndefined) with
               | Ret _ => Some (Ident.getDepth i)
               | Throw _ => Sequence.maxDepth s
               end
          else Sequence.maxDepth s)
         (snd (Storage_add (Sequence.storage s) VUndefined VUndefined)) g').
Proof.
  intros s v pos before after i g' Hb Ha Hg. run_method.
  rewrite Hb, Ha. cbn [Sequence.storage Sequence.idGenerator]. run_method.
  rewrite Hg. cbn.
  destruct (Storage_add (Sequence.storage s) VUndefined VUndefined) as [[[]|e] st'];
    cbn; destruct (Sequence.maxDepth_lt _ _); reflexivity.
Qed.

(** [remove], step by step. *)
Lemma remove_unfolded :
  forall s pos,
    Sequence.remove pos s =
      match Storage_get (Sequence.storage s) pos with
      | None => (Ret None, s)
      | Some atom =>
          (match fst (Storage_remove (Sequence.storage s) VUndefined) with
           | Ret _ => Ret (Some (mkOp OpKind.Remove (VIdent (atom_id atom))
                                   VUndefined VUndefined VUndefined))
           | Throw e => Throw e
           end,
           Sequence.mk (Sequence.replica s) (Sequence.maxDepth s)
             (snd (Storage_remove (Sequence.storage s) VUndefined))
             (Sequence.idGenerator s))
      end.
Proof.
  intros s pos. run_method.
  destruct (Storage_get (Sequence.storage s) pos) as [atom|]; [|reflexivity].
  run_method. cbn.
  destruct (Storage_remove (Sequence.storage s) VUndefined) as [[[]|e] st'];
    reflexivity.
Qed.

(** C3 (as the code has it).  [remove(pos)] looks up
    [storage.get(pos)], the storage position that counts the low
    bookend -- the atom whose value [get(pos - 1)] reads, where
    [get(pos)] reads position [pos + 1]; with nothing there it returns
    [null] and changes nothing; otherwise it builds
    [new RemoveOp(atom.id)], whose replica field holds the identifier
    and whose id field is [undefined], it is [undefined] that reaches
    [storage.remove], and the call ends as that [remove] ends. *)
Theorem remove_resolves_storage_position :
  forall s pos,
    (Storage_get (Sequence.storage s) pos = None ->
     Sequence.remove pos s = (Ret None, s)) /\
    (forall atom,
       Storage_get (Sequence.storage s) pos = Some atom ->
       Sequence.get (pos - 1) s = atom_value atom /\
       Sequence.remove pos s =
         (match fst (Storage_remove (Sequence.storage s) VUndefined) with
          | Ret _ => Ret (Some (mkOp OpKind.Remove (VIdent (atom_id atom))
                                  VUndefined VUndefined VUndefined))
          | Throw e => Throw e
          end,
          Sequence.mk (Sequence.replica s) (Sequence.maxDepth s)
            (snd (Storage_remove (Sequence.storage s) VUndefined))
            (Sequence.idGenerator s))).
Proof.
  intros s pos. split.
  - intros Hg. rewrite remove_unfolded. now rewrite Hg.
  - intros atom Hg. split.
    + unfold Sequence.get. replace (pos - 1 + 1) with pos by lia.
      now rewrite Hg.
    + rewrite remove_unfolded. now rewrite Hg.
Qed.

(** No method assigns [maxDepth] while it is [undefined]. *)
Lemma insert_keeps_undefined_depth v pos s :
  Sequence.maxDepth s = None ->
  Sequence.maxDepth (snd (Sequence.insert v pos s)) = None.
Proof.
  intros Hm. run_method.
  destruct (Storage_get (Sequence.storage s) pos) as [b|]; [|exact Hm].
  destruct (Storage_get (Sequence.storage s) (pos + 1)) as [a|]; [|exact Hm].
  cbn. destruct (getIdent _ _ _) as [[i|e] g']; [|exact Hm].
  cbn. destruct (Storage_add _ _ _) as [[[]|e] st']; cbn; [|exact Hm].
  unfold Sequence.maxDepth_lt. now rewrite Hm.
Qed.

Lemma step_keeps_undefined_depth s c :
  Sequence.maxDepth s = None -> Sequence.maxDepth (step s c) = None.
Proof.
  intros Hm. destruct c as [v pos|v|pos|op]; cbn [step].
  - now apply insert_keeps_undefined_depth.
  - unfold Sequence.append. now apply insert_keeps_undefined_depth.
  - rewrite remove_unfolded.
    destruct (Storage_get _ _); exact Hm.
  - now rewrite (proj1 (proj2 (apply_keeps_fields op s))).
Qed.

Lemma run_keeps_undefined_depth calls s :
  Sequence.maxDepth s = None -> Sequence.maxDepth (run calls s) = None.
Proof.
  revert s. induction calls as [|c calls IH]; intros s Hm; [exact Hm|].
  cbn [run fold_left]. apply IH, step_keeps_undefined_depth, Hm.
Qed.

Lemma new_depth_undefined rep st g A :
  Sequence.new rep st g = Ret A -> Sequence.maxDepth A = None.
Proof.
  unfold Sequence.new. destruct (getBookends g) as [first last].
  destruct (Storage_add st _ _) as [[[]|e] st1]; [|discriminate].
  destruct (Storage_add st1 _ _) as [[[]|e] st2]; [|discriminate].
  now intros [= <-].
Qed.

(** C9 (as the code has it).  The constructor leaves [maxDepth]
    [undefined], the test [this.maxDepth < id.getDepth()] is false on
    [undefined], and so [depth()] is still [undefined] after any
    sequence of calls on a constructed sequence, local inserts
    included. *)
Theorem depth_stays_undefined :
  forall rep st g A calls,
    Sequence.new rep st g = Ret A ->
    Sequence.depth (run calls A) = None.
Proof.
  intros rep st g A calls HA. unfold Sequence.depth.
  apply run_keeps_undefined_depth. eapply new_depth_undefined, HA.
Qed.

End Facade.

(** ** The identifier order *)

Lemma string_compare_refl (a : string) : String.compare a a = Eq.
Proof. now apply String_as_OT.cmp_eq. Qed.

Lemma string_compare_trans (a b c : string) :
  String.compare a b = Lt -> String.compare b c = Lt -> String.compare a c = Lt.
Proof.
  intros Hab Hbc. apply String_as_OT.cmp_lt.
  eapply String_as_OT.lt_trans; apply String_as_OT.cmp_lt; eassumption.
Qed.

Lemma Segment_compare_refl (x : Ident.Segment) : Ident.Segment_compare x x = Eq.
Proof.
  unfold Ident.Segment_compare. rewrite N.compare_refl. apply string_compare_refl.
Qed.

Lemma Segment_compare_eq (x y : Ident.Segment) :
  Ident.Segment_compare x y = Eq -> x = y.
Proof.
  unfold Ident.Segment_compare. destruct x as [p a], y as [q b]; simpl.
  destruct (N.compare_spec p q); try discriminate.
  intros Hs. apply String.compare_eq_iff in Hs. now subst.
Qed.

Lemma Segment_compare_antisym (x y : Ident.Segment) :
  Ident.Segment_compare y x = CompOpp (Ident.Segment_compare x y).
Proof.
  unfold Ident.Segment_compare.
  rewrite (N.compare_antisym (Ident.position x) (Ident.position y)).
  destruct (N.compare (Ident.position x) (Ident.position y)); simpl; try reflexivity.
  apply String.compare_antisym.
Qed.

Lemma Segment_compare_trans (x y z : Ident.Segment) :
  Ident.Segment_compare x y = Lt -> Ident.Segment_compare y z = Lt ->
  Ident.Segment_compare x z = Lt.
Proof.
  unfold Ident.Segment_compare.
  destruct (N.compare_spec (Ident.position x) (Ident.position y));
    destruct (N.compare_spec (Ident.position y) (Ident.position z));
    destruct (N.compare_spec (Ident.position x) (Ident.position z));
    try discriminate; try lia; auto.
  apply string_compare_trans.
Qed.

Lemma Ident_compare_refl (a : Ident.t) : Ident.compare a a = Eq.
Proof.
  induction a as [|x a IH]; simpl; [reflexivity|].
  now rewrite Segment_compare_refl.
Qed.

Lemma Ident_compare_eq (a b : Ident.t) : Ident.compare a b = Eq -> a = b.
Proof.
  revert b. induction a as [|x a IH]; intros [|y b]; simpl; try discriminate; auto.
  destruct (Ident.Segment_compare x y) eqn:E; try discriminate.
  intros Hab. apply Segment_compare_eq in E. apply IH in Hab. now subst.
Qed.

Lemma Ident_compare_eq_iff (a b : Ident.t) : Ident.compare a b = Eq <-> a = b.
Proof.
  split; [apply Ident_compare_eq | intros ->; apply Ident_compare_refl].
Qed.

Lemma Ident_compare_antisym (a b : Ident.t) :
  Ident.compare b a = CompOpp (Ident.compare a b).
Proof.
  revert b. induction a as [|x a IH]; intros [|y b]; simpl; try reflexivity.
  rewrite (Segment_compare_antisym x y).
  destruct (Ident.Segment_compare x y); simpl; auto.
Qed.

Lemma Ident_compare_gt (a b : Ident.t) : Ident.compare a b = Gt -> Ident_lt b a.
Proof.
  intros Hab. unfold Ident_lt. now rewrite (Ident_compare_antisym a b), Hab.
Qed.

Lemma Ident_lt_trans (a b c : Ident.t) : Ident_lt a b -> Ident_lt b c -> Ident_lt a c.
Proof.
  unfold Ident_lt. revert b c.
  induction a as [|x a IH]; intros [|y b] [|z c]; simpl; try discriminate; auto.
  destruct (Ident.Segment_compare x y) eqn:Exy; try discriminate;
    destruct (Ident.Segment_compare y z) eqn:Eyz; try discriminate; intros Hab Hbc.
  - apply Segment_compare_eq in Exy, Eyz. subst.
    rewrite Segment_compare_refl. eauto.
  - apply Segment_compare_eq in Exy. subst. now rewrite Eyz.
  - apply Segment_compare_eq in Eyz. subst. now rewrite Exy.
  - now rewrite (Segment_compare_trans _ _ _ Exy Eyz).
Qed.

Lemma Ident_lt_irrefl (a : Ident.t) : ~ Ident_lt a a.
Proof. unfold Ident_lt. now rewrite Ident_compare_refl. Qed.

Lemma Ident_lt_neq (a b : Ident.t) : Ident_lt a b -> Ident.compare b a <> Eq.
Proof.
  intros Hab Heq. apply Ident_compare_eq in Heq. subst.
  now apply Ident_lt_irrefl in Hab.
Qed.

(** ** The array storage keeps its order *)

Lemma insert_atom_In (i : Ident.t) (v : jsval) (l : list Atom) (a : Atom) :
  In a (ArrayStorage.insert_atom i v l) -> a = mkAtom i v \/ In a l.
Proof.
  induction l as [|b l IH]; simpl.
  - intros [<-|[]]. now left.
  - destruct (Ident.compare i (atom_id b)); simpl; intuition.
Qed.

Lemma insert_atom_keeps (i : Ident.t) (v : jsval) (l : list Atom) (a : Atom) :
  In a l -> In a (ArrayStorage.insert_atom i v l).
Proof.
  induction l as [|b l IH]; simpl; [tauto|].
  destruct (Ident.compare i (atom_id b)); simpl; intuition.
Qed.

Lemma insert_atom_ascending (i : Ident.t) (v : jsval) (l : list Atom) :
  ascending l -> ascending (ArrayStorage.insert_atom i v l).
Proof.
  unfold ascending.
  induction l as [|b l IH]; simpl; intros Hs.
  - repeat constructor.
  - inversion Hs as [|? ? Hl Hb]; subst.
    destruct (Ident.compare i (atom_id b)) eqn:E; [exact Hs | |].
    + constructor; [exact Hs|].
      constructor; [exact E|].
      eapply Forall_impl; [|exact Hb].
      intros c Hc. eapply Ident_lt_trans; [exact E | exact Hc].
    + constructor; [now apply IH|].
      apply Forall_forall. intros c Hc.
      apply insert_atom_In in Hc as [->|Hc].
      * now apply Ident_compare_gt.
      * now apply (proj1 (Forall_forall _ _) Hb).
Qed.

(** [add] of an identifier that is stored changes nothing. *)
Lemma insert_atom_present (i : Ident.t) (v : jsval) (l : list Atom) (b : Atom) :
  ascending l -> In b l -> atom_id b = i -> ArrayStorage.insert_atom i v l = l.
Proof.
  unfold ascending.
  induction l as [|a l IH]; simpl; intros Hs Hin Hb; [contradiction|].
  inversion Hs as [|? ? Hl Ha]; subst.
  destruct (Ident.compare (atom_id b) (atom_id a)) eqn:E; [reflexivity | |].
  - exfalso. destruct Hin as [->|Hin].
    + now rewrite Ident_compare_refl in E.
    + apply (Ident_lt_irrefl (atom_id b)).
      eapply Ident_lt_trans; [exact E|].
      now apply (proj1 (Forall_forall _ _) Ha).
  - destruct Hin as [->|Hin].
    + now rewrite Ident_compare_refl in E.
    + f_equal. now apply IH.
Qed.

(** [add] of an identifier leaves an atom with that identifier stored. *)
Lemma insert_atom_stores (i : Ident.t) (v : jsval) (l : list Atom) :
  exists w, In (mkAtom i w) (ArrayStorage.insert_atom i v l) /\
            (w = v \/ In (mkAtom i w) l).
Proof.
  induction l as [|a l IH]; simpl.
  - exists v. auto.
  - destruct (Ident.compare i (atom_id a)) eqn:E.
    + apply Ident_compare_eq in E. destruct a as [j w]; simpl in *; subst.
      exists w. auto.
    + exists v. simpl. auto.
    + destruct IH as (w & Hin & Hw). exists w. simpl. intuition.
Qed.

Lemma delete_atom_In (i : Ident.t) (l : list Atom) (a : Atom) :
  In a (ArrayStorage.delete_atom i l) -> In a l.
Proof.
  induction l as [|b l IH]; simpl; [tauto|].
  destruct (Ident.compare i (atom_id b)); simpl; intuition.
Qed.

Lemma delete_atom_keeps (i : Ident.t) (l : list Atom) (a : Atom) :
  In a l -> Ident.compare i (atom_id a) <> Eq -> In a (ArrayStorage.delete_atom i l).
Proof.
  induction l as [|b l IH]; simpl; [tauto|].
  intros Hin Hne.
  destruct (Ident.compare i (atom_id b)) eqn:E; destruct Hin as [Heq|Hin];
    subst; simpl; try congruence; auto.
Qed.

Lemma delete_atom_ascending (i : Ident.t) (l : list Atom) :
  ascending l -> ascending (ArrayStorage.delete_atom i l).
Proof.
  unfold ascending.
  induction l as [|b l IH]; simpl; intros Hs; [constructor|].
  inversion Hs as [|? ? Hl Hb]; subst.
  destruct (Ident.compare i (atom_id b)); try exact Hl;
    (constructor; [now apply IH|]);
    apply Forall_forall; intros c Hc; apply delete_atom_In in Hc;
    now apply (proj1 (Forall_forall _ _) Hb).
Qed.

(** [remove] of a stored identifier takes its atom out. *)
Lemma delete_atom_removes (i : Ident.t) (l : list Atom) (a : Atom) :
  ascending l -> In a (ArrayStorage.delete_atom i l) -> atom_id a <> i.
Proof.
  unfold ascending.
  induction l as [|b l IH]; simpl; intros Hs Hin; [contradiction|].
  inversion Hs as [|? ? Hl Hb]; subst.
  destruct (Ident.compare i (atom_id b)) eqn:E.
  - apply Ident_compare_eq in E. subst. intros Heq.
    apply (Ident_lt_irrefl (atom_id b)). rewrite <- Heq at 2.
    now apply (proj1 (Forall_forall _ _) Hb).
  - destruct Hin as [<-|Hin]; [|now apply IH].
    intros Heq. rewrite Heq, Ident_compare_refl in E. discriminate.
  - destruct Hin as [<-|Hin]; [|now apply IH].
    intros Heq. rewrite Heq, Ident_compare_refl in E. discriminate.
Qed.

Lemma is_bookend_iff (first last i : Ident.t) :
  is_bookend first last i = true <-> i = first \/ i = last.
Proof.
  unfold is_bookend. split.
  - destruct (Ident.compare i first) eqn:Ef;
      [left; now apply Ident_compare_eq|..];
      (destruct (Ident.compare i last) eqn:El; try discriminate;
       right; now apply Ident_compare_eq).
  - intros [->| ->]; rewrite Ident_compare_refl; [reflexivity|].
    now destruct (Ident.compare last first).
Qed.

Lemma is_bookend_false (first last i : Ident.t) :
  is_bookend first last i = false <-> i <> first /\ i <> last.
Proof.
  rewrite <- not_true_iff_false, is_bookend_iff. tauto.
Qed.

(** In an ascending array holding both (distinct) bookends, all atoms
    but two are user values. *)
Lemma user_atoms_absent (first last : Ident.t) (l : list Atom) :
  (forall a, In a l -> is_bookend first last (atom_id a) = false) ->
  user_atoms first last l = l.
Proof.
  unfold user_atoms. induction l as [|a l IH]; simpl; intros Hn; [reflexivity|].
  rewrite (Hn a) by auto. simpl. f_equal. apply IH. auto.
Qed.

Lemma user_atoms_one (x y : Ident.t) (l : list Atom) :
  ascending l -> (exists a, In a l /\ atom_id a = x) ->
  (forall a, In a l -> atom_id a <> y) ->
  List.length l = S (List.length (user_atoms x y l)).
Proof.
  unfold ascending.
  induction l as [|a l IH]; simpl; intros Hs (b & Hin & Hb) Hy; [contradiction|].
  inversion Hs as [|? ? Hl Ha]; subst.
  destruct (is_bookend (atom_id b) y (atom_id a)) eqn:E; simpl.
  - apply is_bookend_iff in E as [E|E]; [|now apply Hy in E; auto].
    f_equal. rewrite user_atoms_absent; [reflexivity|].
    intros c Hc. apply is_bookend_false. split; [|now apply Hy; auto].
    intros Heq. apply (Ident_lt_irrefl (atom_id a)).
    rewrite E at 2. rewrite <- Heq. now apply (proj1 (Forall_forall _ _) Ha).
  - f_equal. apply is_bookend_false in E as [E _].
    destruct Hin as [->|Hin]; [congruence|].
    apply IH; eauto.
Qed.

Lemma user_atoms_swap (x y : Ident.t) (l : list Atom) :
  user_atoms x y l = user_atoms y x l.
Proof.
  unfold user_atoms. apply filter_ext. intros a. f_equal.
  apply eq_true_iff_eq. rewrite !is_bookend_iff. tauto.
Qed.

Lemma user_atoms_two (first last : Ident.t) (l : list Atom) :
  ascending l -> first <> last ->
  (exists a, In a l /\ atom_id a = first) ->
  (exists a, In a l /\ atom_id a = last) ->
  List.length l = S (S (List.length (user_atoms first last l))).
Proof.
  unfold ascending.
  induction l as [|a l IH]; simpl; intros Hs Hne (b & Hb & Hbi) (c & Hc & Hci);
    [contradiction|].
  inversion Hs as [|? ? Hl Ha]; subst.
  assert (Hfresh : forall e, In e l -> atom_id e <> atom_id a).
  { intros e He Heq. apply (Ident_lt_irrefl (atom_id a)).
    rewrite <- Heq at 2. now apply (proj1 (Forall_forall _ _) Ha). }
  destruct (is_bookend (atom_id b) (atom_id c) (atom_id a)) eqn:E; simpl.
  - f_equal. apply is_bookend_iff in E as [E|E].
    + destruct Hc as [->|Hc]; [congruence|].
      rewrite user_atoms_swap. apply user_atoms_one; eauto.
      intros e He. rewrite <- E. now apply Hfresh.
    + destruct Hb as [->|Hb]; [congruence|].
      apply user_atoms_one; eauto.
      intros e He. rewrite <- E. now apply Hfresh.
  - f_equal. apply is_bookend_false in E as [E1 E2].
    destruct Hb as [->|Hb]; [congruence|].
    destruct Hc as [->|Hc]; [congruence|].
    apply IH; eauto.
Qed.

(** ** The Sequence facade on the array storage *)

Section OnArrays.

Context {G : Type} `{IdentGenerator G}.

Implicit Types (s : Sequence.t ArrayStorage.t G) (op : Op).

(** The constructor on an empty array: both bookends are added, with
    [null] for a value. *)
Lemma new_on_empty_array (rep : string) (g : G) :
  Sequence.new rep ArrayStorage.empty g =
  Ret (Sequence.mk rep None
         (ArrayStorage.insert_atom (snd (getBookends g)) VNull
            [mkAtom (fst (getBookends g)) VNull]) g).
Proof.
  unfold Sequence.new. now destruct (getBookends g) as [first last].
Qed.

(** A local insert never changes the array: the operation it applies
    carries [undefined] for an id. *)
Lemma insert_leaves_array v pos s :
  Sequence.storage (snd (Sequence.insert v pos s)) = Sequence.storage s.
Proof.
  run_method.
  destruct (Storage_get (Sequence.storage s) pos) as [b|]; [|reflexivity].
  destruct (Storage_get (Sequence.storage s) (pos + 1)) as [a|]; [|reflexivity].
  cbn. destruct (getIdent _ _ _) as [[i|e] g']; reflexivity.
Qed.


Lemma remove_leaves_array pos s :
  Sequence.storage (snd (Sequence.remove pos s)) = Sequence.storage s.
Proof.
  rewrite remove_unfolded.
  now destruct (Storage_get (Sequence.storage s) pos).
Qed.


(** What [apply] does to the array. *)
Lemma apply_on_array op s :
  Sequence.storage (snd (Sequence.apply op s)) =
  match id op with
  | VIdent i =>
      if kind op =? OpKind.Insert
      then ArrayStorage.insert_atom i (value op) (Sequence.storage s)
      else if kind op =? OpKind.Remove
           then ArrayStorage.delete_atom i (Sequence.storage s)
           else Sequence.storage s
  | _ => Sequence.storage s
  end.
Proof.
  run_method.
  destruct (kind op =? OpKind.Insert); [destruct (id op); reflexivity|].
  destruct (kind op =? OpKind.Remove); destruct (id op); reflexivity.
Qed.



Lemma step_ascending s c :
  ascending (Sequence.storage s) -> ascending (Sequence.storage (step s c)).
Proof.
  intros Hs. destruct c as [v pos|v|pos|op]; cbn [step].
  - now rewrite insert_leaves_array.
  - unfold Sequence.append. now rewrite insert_leaves_array.
  - now rewrite remove_leaves_array.
  - rewrite apply_on_array. destruct (id op); try exact Hs.
    destruct (kind op =? OpKind.Insert); [now apply insert_atom_ascending|].
    destruct (kind op =? OpKind.Remove); [now apply delete_atom_ascending|exact Hs].
Qed.

Lemma run_ascending calls s :
  ascending (Sequence.storage s) -> ascending (Sequence.storage (run calls s)).
Proof.
  revert s. induction calls as [|c calls IH]; intros s Hs; [exact Hs|].
  cbn [run fold_left]. now apply IH, step_ascending.
Qed.

Lemma new_array rep g A :
  Sequence.new rep ArrayStorage.empty g = Ret A ->
  Sequence.storage A =
  ArrayStorage.insert_atom (snd (getBookends g)) VNull [mkAtom (fst (getBookends g)) VNull].
Proof.
  rewrite new_on_empty_array. intros HA. injection HA as <-. reflexivity.
Qed.

Lemma new_ascending rep g A :
  Sequence.new rep ArrayStorage.empty g = Ret A -> ascending (Sequence.storage A).
Proof.
  intros HA. rewrite (new_array _ _ _ HA).
  apply insert_atom_ascending. repeat constructor.
Qed.

Lemma new_kept rep g A :
  Sequence.new rep ArrayStorage.empty g = Ret A ->
  kept (fst (getBookends g)) (snd (getBookends g)) (Sequence.storage A).
Proof.
  intros HA. rewrite (new_array _ _ _ HA).
  set (first := fst (getBookends g)). set (last := snd (getBookends g)).
  repeat split.
  - apply insert_atom_keeps. now left.
  - destruct (insert_atom_stores last VNull [mkAtom first VNull]) as (w & Hin & [Hw|Hw]).
    + now rewrite Hw in Hin.
    + destruct Hw as [Hw|[]]. injection Hw as _ Hw. now rewrite <- Hw in Hin.
  - intros a Ha _. apply insert_atom_In in Ha as [->|[<-|[]]]; reflexivity.
Qed.

Lemma step_kept first last s c :
  ascending (Sequence.storage s) ->
  removes_bookend first last c = false ->
  kept first last (Sequence.storage s) ->
  kept first last (Sequence.storage (step s c)).
Proof.
  unfold kept. intros Hs Hc Hk. destruct c as [v pos|v|pos|op]; cbn [step].
  - now rewrite insert_leaves_array.
  - unfold Sequence.append. now rewrite insert_leaves_array.
  - now rewrite remove_leaves_array.
  - rewrite apply_on_array. cbn [removes_bookend] in Hc.
    destruct (id op) as [| | | | |i]; try exact Hk.
    destruct Hk as (Hf & Hl & Hn).
    destruct (kind op =? OpKind.Insert) eqn:Ek.
    + destruct (is_bookend first last i) eqn:Eb.
      * assert (Hsame : ArrayStorage.insert_atom i (value op) (Sequence.storage s)
                        = Sequence.storage s).
        { apply is_bookend_iff in Eb as [Eb|Eb]; subst i;
            [apply insert_atom_present with (b := mkAtom first VNull)
            |apply insert_atom_present with (b := mkAtom last VNull)]; auto. }
        rewrite Hsame. auto.
      * split; [now apply insert_atom_keeps|].
        split; [now apply insert_atom_keeps|].
        intros a Ha Hb. apply insert_atom_In in Ha as [Ha|Ha]; [|now apply Hn].
        subst a. cbn in Hb. congruence.
    + destruct (kind op =? OpKind.Remove) eqn:Er; [|auto].
      cbn in Hc. apply is_bookend_false in Hc as [Hi1 Hi2].
      split; [|split].
      * apply delete_atom_keeps; [exact Hf|]. cbn. now rewrite Ident_compare_eq_iff.
      * apply delete_atom_keeps; [exact Hl|]. cbn. now rewrite Ident_compare_eq_iff.
      * intros a Ha. apply Hn. eapply delete_atom_In, Ha.
Qed.

Lemma run_kept first last calls s :
  ascending (Sequence.storage s) ->
  Forall (fun c => removes_bookend first last c = false) calls ->
  kept first last (Sequence.storage s) ->
  kept first last (Sequence.storage (run calls s)).
Proof.
  revert s. induction calls as [|c calls IH]; intros s Hs Hc Hk; [exact Hk|].
  inversion Hc; subst. cbn [run fold_left].
  apply IH; [now apply step_ascending | assumption | now apply step_kept].
Qed.

Lemma kept_intact first last s :
  first <> last -> ascending (Sequence.storage s) ->
  kept first last (Sequence.storage s) -> bookends_intact first last s.
Proof.
  unfold bookends_intact. intros Hne Hs Hk. split; [exact Hk|].
  destruct Hk as (Hf & Hl & Hn).
  unfold Sequence.size. cbn [Storage_size ArrayStorage_Storage]. unfold ArrayStorage.size.
  rewrite (user_atoms_two first last (Sequence.storage s) Hs Hne);
    [lia
    |exists (mkAtom first VNull); auto
    |exists (mkAtom last VNull); auto].
Qed.

(** C4 (amended).  On the array storage, with a generator whose two
    bookends differ, after any sequence of [insert], [append], [remove]
    and [apply] calls none of which applies a remove operation naming a
    bookend, the storage holds both bookend atoms, nothing but [null]
    is stored under a bookend identifier, and [size()] is the number of
    atoms that are not bookends. *)
Theorem bookends_intact_unless_removed :
  forall (rep : string) (g : G) (calls : list call),
    fst (getBookends g) <> snd (getBookends g) ->
    Forall (fun c => removes_bookend (fst (getBookends g)) (snd (getBookends g)) c = false)
           calls ->
    exists A,
      Sequence.new rep ArrayStorage.empty g = Ret A /\
      bookends_intact (fst (getBookends g)) (snd (getBookends g)) (run calls A).
Proof.
  intros rep g calls Hne Hc. eexists. split; [apply new_on_empty_array|].
  pose proof (new_on_empty_array rep g) as HA.
  apply kept_intact; [exact Hne | |].
  - eapply run_ascending, new_ascending, HA.
  - apply run_kept; [eapply new_ascending, HA | exact Hc | eapply new_kept, HA].
Qed.














(** C2 (as the code has it).  At replica A on the array storage, for
    any generator, the two local inserts of the scenario leave the
    storage as the constructor made it: [toArray()] is the same before
    and after, it holds nothing but [null], and it is not
    [["x", "y"]]. *)
Theorem scenario_inserts_never_reach_storage :
  forall (g : G),
    exists A,
      Sequence.new "A" ArrayStorage.empty g = Ret A /\
      let A1 := snd (Sequence.insert (VStr "x") 0 A) in
      let A2 := snd (Sequence.insert (VStr "y") 1 A1) in
      Sequence.toArray A2 = Sequence.toArray A /\
      Forall (eq VNull) (Sequence.toArray A2) /\
      Sequence.toArray A2 <> [VStr "x"; VStr "y"].
Proof.
  intros g. eexists. split; [apply new_on_empty_array|].
  cbv zeta. unfold Sequence.toArray. rewrite !insert_leaves_array.
  assert (Hnull : Forall (eq VNull)
            (Storage_map atom_value
               (ArrayStorage.insert_atom (snd (getBookends g)) VNull
                  [mkAtom (fst (getBookends g)) VNull]))).
  { cbn. now destruct (Ident.compare _ _); repeat constructor. }
  split; [reflexivity|]. split; [exact Hnull|].
  intros Heq. cbn [Sequence.storage] in Heq. rewrite Heq in Hnull.
  inversion Hnull; discriminate.
Qed.

End OnArrays.

(** ** Worked cases on the small replica *)

Lemma fresh_is_new :
  Sequence.new "A" ArrayStorage.empty Sample.generator = Ret Sample.fresh.
Proof. reflexivity. Qed.

Lemma insert_misplaces_constructor_arguments_witness :
  Storage_get (Sequence.storage Sample.fresh) 0 = Some (mkAtom Sample.MIN VNull) /\
  Storage_get (Sequence.storage Sample.fresh) (0 + 1) = Some (mkAtom Sample.MAX VNull) /\
  Sequence.insert (VStr "x") 0 Sample.fresh =
    (Throw TypeError,
     Sequence.mk "A" None [mkAtom Sample.MIN VNull; mkAtom Sample.MAX VNull]
       (ScriptedGenerator.mk Sample.MIN Sample.MAX [Sample.y_id])).
Proof.
  split; [reflexivity|]. split; [reflexivity|].
  exact (insert_misplaces_constructor_arguments Sample.fresh (VStr "x") 0
           (mkAtom Sample.MIN VNull) (mkAtom Sample.MAX VNull) Sample.x_id
           (ScriptedGenerator.mk Sample.MIN Sample.MAX [Sample.y_id])
           eq_refl eq_refl eq_refl).
Defined.

Lemma apply_dispatches_on_kind_witness :
  Sequence.apply Sample.insert_x Sample.fresh =
    (Ret tt,
     Sequence.mk "A" None
       [mkAtom Sample.MIN VNull; mkAtom Sample.x_id (VStr "x"); mkAtom Sample.MAX VNull]
       Sample.generator) /\
  Sequence.apply (mkOp 3 (VStr "B") (VNum 1) (VIdent Sample.x_id) VUndefined) Sample.fresh =
    (Throw (Error "Unknown op kind 3"), Sample.fresh).
Proof.
  split.
  - exact (proj1 (apply_dispatches_on_kind Sample.insert_x Sample.fresh) eq_refl).
  - apply (proj2 (proj2 (apply_dispatches_on_kind
                           (mkOp 3 (VStr "B") (VNum 1) (VIdent Sample.x_id) VUndefined)
                           Sample.fresh))); discriminate.
Defined.

Lemma depth_stays_undefined_witness :
  Sequence.new "A" ArrayStorage.empty Sample.generator = Ret Sample.fresh /\
  Sequence.depth (run [CInsert (VStr "x") 0; CApply Sample.insert_x] Sample.fresh) = None.
Proof.
  split; [reflexivity|].
  apply (depth_stays_undefined "A" ArrayStorage.empty Sample.generator Sample.fresh
           [CInsert (VStr "x") 0; CApply Sample.insert_x]).
  reflexivity.
Defined.

Lemma bookends_intact_unless_removed_witness :
  exists A,
    Sequence.new "A" ArrayStorage.empty Sample.generator = Ret A /\
    bookends_intact Sample.MIN Sample.MAX
      (run [CInsert (VStr "x") 0; CApply Sample.insert_x; CRemove 0; CAppend (VStr "z");
            CApply (RemoveOp_new [VStr "A"; VNum 3; VIdent Sample.x_id])] A).
Proof.
  assert (Hne : fst (getBookends Sample.generator) <> snd (getBookends Sample.generator))
    by discriminate.
  exact (bookends_intact_unless_removed "A" Sample.generator
           [CInsert (VStr "x") 0; CApply Sample.insert_x; CRemove 0; CAppend (VStr "z");
            CApply (RemoveOp_new [VStr "A"; VNum 3; VIdent Sample.x_id])]
           Hne ltac:(repeat constructor)).
Defined.

(** C4 as stated fails: [apply] of a remove operation that names the
    low bookend deletes it, and [size()] of the empty sequence is then
    -1. *)
Lemma apply_remove_drops_bookend :
  Sequence.new "A" ArrayStorage.empty Sample.generator = Ret Sample.fresh /\
  Sequence.storage (run [CApply Sample.remove_MIN] Sample.fresh)
    = [mkAtom Sample.MAX VNull] /\
  Sequence.size (run [CApply Sample.remove_MIN] Sample.fresh) = -1 /\
  ~ bookends_intact Sample.MIN Sample.MAX (run [CApply Sample.remove_MIN] Sample.fresh).
Proof.
  repeat split.
  intros [(Hf & _) _]. cbn in Hf. destruct Hf as [Hf|[]]. discriminate Hf.
Qed.

(** Remote inserts commute on replica B: well-formed operations give
    the same array in either delivery order. *)
Example remote_inserts_commute :
  Sequence.toArray (run [CApply Sample.insert_y; CApply Sample.insert_x] Sample.fresh)
    = [VStr "x"; VStr "y"] /\
  Sequence.toArray (run [CApply Sample.insert_x; CApply Sample.insert_y] Sample.fresh)
    = [VStr "x"; VStr "y"].
Proof. split; reflexivity. Qed.

Lemma remove_resolves_storage_position_witness :
  let B := run [CApply Sample.insert_x] Sample.fresh in
  Storage_get (Sequence.storage B) 0 = Some (mkAtom Sample.MIN VNull) /\
  Sequence.get (0 - 1) B = VNull /\
  Sequence.remove 0 B = (Throw TypeError, B).
Proof.
  split; [reflexivity|].
  exact (proj2 (remove_resolves_storage_position
                  (run [CApply Sample.insert_x] Sample.fresh) 0)
           (mkAtom Sample.MIN VNull) eq_refl).
Defined.

(** [remove(0)] on a replica that holds ["x"]: position 0 of the
    storage is the low bookend, [get(0)] is ["x"], and ["x"] is still
    there after the call. *)
Example remove_first_keeps_value :
  let B := run [CApply Sample.insert_x] Sample.fresh in
  Sequence.get 0 B = VStr "x" /\
  Storage_get (Sequence.storage B) 0 = Some (mkAtom Sample.MIN VNull) /\
  Sequence.remove 0 B = (Throw TypeError, B) /\
  Sequence.get 0 (snd (Sequence.remove 0 B)) = VStr "x".
Proof. repeat split. Qed.

(** [remove] one past the last value does not return [null]: it
    resolves the last value's atom. *)
Example remove_past_end_not_null :
  let B := run [CApply Sample.insert_x] Sample.fresh in
  Sequence.size B = 1 /\
  Sequence.get 1 B = VNull /\
  Storage_get (Sequence.storage B) 1 = Some (mkAtom Sample.x_id (VStr "x")) /\
  fst (Sequence.remove 1 B) <> Ret None.
Proof. repeat split. discriminate. Qed.

(** A remote insert of a depth-2 identifier into a sequence whose
    [maxDepth] is 1: the atom is stored and [depth()] is still 1. *)
Example apply_deeper_insert_keeps_depth :
  Ident.getDepth Sample.deep_id = 2 /\
  Sequence.depth Sample.shallow = Some 1 /\
  Sequence.depth (snd (Sequence.apply Sample.insert_deep Sample.shallow)) = Some 1 /\
  In (mkAtom Sample.deep_id (VStr "w"))
     (Sequence.storage (snd (Sequence.apply Sample.insert_deep Sample.shallow))).
Proof. repeat split. cbn. auto. Qed.

(** * Further properties of the operation codec *)

Lemma Op_parse_cases (P : string -> outcome Ident.t) (str : string) :
  (Js.char0 str = Some "+"%char /\
   Op_parse P str = (op <- InsertOp_parse P str ;; Ret (Some op))%js) \/
  (Js.char0 str = Some "-"%char /\
   Op_parse P str = (op <- RemoveOp_parse P str ;; Ret (Some op))%js) \/
  (Js.char0 str <> Some "+"%char /\ Js.char0 str <> Some "-"%char /\
   Op_parse P str = Ret None).
Proof.
  unfold Op_parse. destruct (Js.char0 str) as [c|].
  - destruct c as [[] [] [] [] [] [] [] []];
      try (right; right; repeat split; congruence);
      [left | right; left]; split; reflexivity.
  - right; right. repeat split; congruence.
Qed.

Lemma InsertOp_parse_result (P : string -> outcome Ident.t) (str : string) :
  InsertOp_parse P str =
  (i <- P str ;;
   Ret (mkOp OpKind.Insert
          (of_elem (Js.elem (Js.split ":" (Js.substr1 str)) 0))
          (Number (Js.elem (Js.split ":" (Js.substr1 str)) 1))
          (VIdent i)
          (of_elem (Js.elem (Js.split ":" (Js.substr1 str)) 3))))%js.
Proof. reflexivity. Qed.

Lemma RemoveOp_parse_result (P : string -> outcome Ident.t) (str : string) :
  RemoveOp_parse P str =
  (i <- P str ;;
   Ret (mkOp OpKind.Remove
          (of_elem (Js.elem (Js.split ":" (Js.substr1 str)) 0))
          (Number (Js.elem (Js.split ":" (Js.substr1 str)) 1))
          (VIdent i)
          VUndefined))%js.
Proof. reflexivity. Qed.

Lemma split_colon_head (s : string) :
  exists t, Js.split ":" s = before_colon s :: t.
Proof.
  induction s as [|a s [t IH]]; simpl; [now exists []|].
  destruct (Ascii.eqb a ":"); [now eexists|].
  rewrite IH. now eexists.
Qed.

Lemma before_colon_clean (s : string) : contains ":" (before_colon s) = false.
Proof.
  induction s as [|a s IH]; simpl; [reflexivity|].
  destruct (Ascii.eqb a ":") eqn:E; simpl; [reflexivity|]. now rewrite E.
Qed.

Lemma elem_clean (c : ascii) (s : string) (n : nat) :
  of_elem (Js.elem (Js.split c s) n) = VUndefined \/
  exists p, of_elem (Js.elem (Js.split c s) n) = VStr p /\ contains c p = false.
Proof.
  unfold Js.elem. destruct (nth_error (Js.split c s) n) as [p|] eqn:E; [|now left].
  right. exists p. split; [reflexivity|].
  apply nth_error_In in E.
  exact (proj1 (Forall_forall _ _) (split_pieces_clean c s) p E).
Qed.

(** The results of [Op.parse], by leading character. *)
Lemma Op_parse_kind_follows_sigil_aux :
  forall (P : string -> outcome Ident.t) (str : string),
    (Op_parse P str = Ret None <->
     Js.char0 str <> Some "+"%char /\ Js.char0 str <> Some "-"%char) /\
    (forall op, Op_parse P str = Ret (Some op) ->
       (Js.char0 str = Some "+"%char /\ kind op = OpKind.Insert) \/
       (Js.char0 str = Some "-"%char /\ kind op = OpKind.Remove /\ value op = VUndefined)).
Proof.
  intros P str.
  destruct (Op_parse_cases P str) as [[Hc ->]|[[Hc ->]|(H1 & H2 & ->)]].
  - rewrite InsertOp_parse_result. split.
    + split; [destruct (P str); discriminate | intros [Hn _]; congruence].
    + intros op. destruct (P str); [|discriminate]. intros [= <-]. now left.
  - rewrite RemoveOp_parse_result. split.
    + split; [destruct (P str); discriminate | intros [_ Hn]; congruence].
    + intros op. destruct (P str); [|discriminate]. intros [= <-]. now right.
  - split; [tauto | discriminate].
Qed.

(** X1.  What [Op.parse] returns follows the leading character: it
    returns [undefined] exactly when that character is neither [+] nor
    [-] (or the text is empty), an operation it returns for [+] is of
    kind Insert, and one it returns for [-] is of kind Remove and has
    no value. *)
Theorem Op_parse_kind_follows_sigil :
  forall (P : string -> outcome Ident.t) (str : string),
    (Op_parse P str = Ret None <->
     Js.char0 str <> Some "+"%char /\ Js.char0 str <> Some "-"%char) /\
    (forall op, Op_parse P str = Ret (Some op) ->
       (Js.char0 str = Some "+"%char /\ kind op = OpKind.Insert) \/
       (Js.char0 str = Some "-"%char /\ kind op = OpKind.Remove /\ value op = VUndefined)).
Proof.
  intros P str. destruct (Op_parse_kind_follows_sigil_aux P str) as [Hn Hk].
  split; [exact Hn | exact Hk].
Qed.

(** X2.  [Op.parse] throws nothing of its own: a call throws [e]
    exactly when the text starts with [+] or [-] and [Ident.parse],
    applied to the whole text, throws [e]. *)
Theorem Op_parse_throws_only_from_Ident_parse :
  forall (P : string -> outcome Ident.t) (str : string) (e : error),
    Op_parse P str = Throw e <->
    (Js.char0 str = Some "+"%char \/ Js.char0 str = Some "-"%char) /\ P str = Throw e.
Proof.
  intros P str e.
  destruct (Op_parse_cases P str) as [[Hc ->]|[[Hc ->]|(H1 & H2 & ->)]].
  - rewrite InsertOp_parse_result. destruct (P str); cbn;
      (split; [intros Hx; try discriminate; split; auto; congruence
              |intros [_ Hx]; try discriminate; congruence]).
  - rewrite RemoveOp_parse_result. destruct (P str); cbn;
      (split; [intros Hx; try discriminate; split; auto; congruence
              |intros [_ Hx]; try discriminate; congruence]).
  - split; [discriminate | tauto].
Qed.

(** X3.  The fields of a parsed operation that come out of the split
    text: the replica is a string without a colon, the id is what
    [Ident.parse] returned for the whole text, and the value is
    [undefined] or a string without a colon. *)
Theorem Op_parse_field_shapes :
  forall (P : string -> outcome Ident.t) (str : string) (op : Op),
    Op_parse P str = Ret (Some op) ->
    (exists r, replica op = VStr r /\ contains ":" r = false) /\
    (exists i, id op = VIdent i /\ P str = Ret i) /\
    (value op = VUndefined \/ exists v, value op = VStr v /\ contains ":" v = false).
Proof.
  intros P str op.
  assert (Hr : exists r, of_elem (Js.elem (Js.split ":" (Js.substr1 str)) 0) = VStr r /\
                         contains ":" r = false).
  { destruct (split_colon_head (Js.substr1 str)) as [t Ht]. rewrite Ht.
    eexists. split; [reflexivity | apply before_colon_clean]. }
  destruct (Op_parse_cases P str) as [[Hc ->]|[[Hc ->]|(H1 & H2 & ->)]];
    [rewrite InsertOp_parse_result | rewrite RemoveOp_parse_result | discriminate];
    (destruct (P str) as [i|]; [|discriminate]); intros [= <-]; cbn [replica time id value];
    (split; [exact Hr|]); (split; [now exists i|]).
  - exact (elem_clean ":" (Js.substr1 str) 3).
  - now left.
Qed.

Lemma Op_parse_field_shapes_witness :
  Op_parse Sample.field_parse "+A:1:7,A:x" = Ret (Some Sample.insert_x) /\
  (exists r, replica Sample.insert_x = VStr r /\ contains ":" r = false).
Proof.
  split; [reflexivity|].
  exact (proj1 (Op_parse_field_shapes Sample.field_parse "+A:1:7,A:x" Sample.insert_x
                  eq_refl)).
Defined.

Lemma split_insert_text_any_value (r ts ids v : string) :
  contains ":" r = false -> contains ":" ts = false -> contains ":" ids = false ->
  exists rest,
    Js.split ":" (r ++ String ":" (ts ++ String ":" (ids ++ String ":" v)))
    = r :: ts :: ids :: before_colon v :: rest.
Proof.
  intros Hr Ht Hi. rewrite !split_app_sep by assumption.
  destruct (split_colon_head v) as [rest ->]. now exists rest.
Qed.

Lemma before_colon_id (s : string) : contains ":" s = false -> before_colon s = s.
Proof.
  induction s as [|a s IH]; simpl; [reflexivity|].
  intros Hc. apply orb_false_iff in Hc as [Ha Hs]. rewrite Ha. f_equal. auto.
Qed.

(** X4.  A colon in the value does not survive the text form: for an
    insert operation with a colon-free replica and identifier text and
    a safe-integer time, [Op.parse] of its [toString()] carries the
    value cut off before its first colon -- the value itself when it
    has no colon, something else when it has one. *)
Theorem Op_parse_value_stops_at_colon :
  forall (P : string -> outcome Ident.t) (r : string) (t : Z) (i : Ident.t) (v : string),
    contains ":" r = false ->
    safe_integer t ->
    contains ":" (Ident.toString i) = false ->
    exists str,
      InsertOp_toString (InsertOp_new [VStr r; VNum t; VIdent i; VStr v]) = Ret str /\
      Op_parse P str =
        (i' <- P str ;;
         Ret (Some (InsertOp_new [VStr r; VNum t; VIdent i'; VStr (before_colon v)])))%js /\
      (before_colon v = v <-> contains ":" v = false).
Proof.
  intros P r t i v Hr _ Hi.
  pose proof (Z_to_string_no_colon t) as Ht.
  eexists. split; [apply InsertOp_toString_text|]. split.
  - unfold Op_parse, InsertOp_parse. cbn [Js.char0 Js.substr1].
    destruct (split_insert_text_any_value r _ _ v Hr Ht Hi) as [rest ->].
    cbn [Js.elem nth_error Number of_elem]. rewrite StringToNumber_Z_to_string.
    destruct (P _); reflexivity.
  - split; [|apply before_colon_id].
    intros <-. apply before_colon_clean.
Qed.

Lemma Op_parse_value_stops_at_colon_witness :
  exists str,
    InsertOp_toString
      (InsertOp_new [VStr "A"; VNum 1; VIdent Sample.x_id; VStr "a:b"]) = Ret str /\
    Op_parse Sample.field_parse str =
      (i' <- Sample.field_parse str ;;
       Ret (Some (InsertOp_new [VStr "A"; VNum 1; VIdent i'; VStr (before_colon "a:b")])))%js /\
    (before_colon "a:b" = "a:b" <-> contains ":" "a:b" = false).
Proof.
  apply (Op_parse_value_stops_at_colon Sample.field_parse "A" 1 Sample.x_id "a:b");
    [reflexivity | unfold safe_integer; simpl; lia | reflexivity].
Defined.

(** X5.  A text that ends before its fields do is not an error: with a
    sigil followed by colon-free text, the rest is the replica, the
    time is [NaN] ([Number(undefined)]) and the value is [undefined]. *)
Theorem Op_parse_short_text :
  forall (P : string -> outcome Ident.t) (s : string),
    contains ":" s = false ->
    Op_parse P (String "+" s) =
      (i <- P (String "+" s) ;;
       Ret (Some (mkOp OpKind.Insert (VStr s) VNaN (VIdent i) VUndefined)))%js /\
    Op_parse P (String "-" s) =
      (i <- P (String "-" s) ;;
       Ret (Some (mkOp OpKind.Remove (VStr s) VNaN (VIdent i) VUndefined)))%js.
Proof.
  intros P s Hs. unfold Op_parse, InsertOp_parse, RemoveOp_parse.
  cbn [Js.char0 Js.substr1]. rewrite (split_no_sep _ _ Hs).
  split; destruct (P _); reflexivity.
Qed.

Lemma Op_parse_short_text_witness :
  Op_parse Sample.field_parse "+A" =
    (i <- Sample.field_parse "+A" ;;
     Ret (Some (mkOp OpKind.Insert (VStr "A") VNaN (VIdent i) VUndefined)))%js.
Proof.
  exact (proj1 (Op_parse_short_text Sample.field_parse "A" eq_refl)).
Defined.

Lemma toString_method_cases (v : jsval) :
  (toString_method v = Throw TypeError /\ (v = VUndefined \/ v = VNull)) \/
  (toString_method v = Ret (ToString v) /\ v <> VUndefined /\ v <> VNull).
Proof.
  destruct v; cbn; (left; split; [reflexivity | auto]; fail) ||
                   (right; repeat split; discriminate).
Qed.

(** X6.  [toString()] throws exactly when a field it calls [toString]
    on is [undefined] or [null] -- the id, and for an insert also the
    value -- and then it is a [TypeError]; in particular the
    operations [Sequence.insert] and [Sequence.remove] build, with
    [new InsertOp(id, value)] and [new RemoveOp(id)], have no text
    form. *)
Theorem toString_throws_on_missing_field :
  forall (op : Op),
    (forall e, InsertOp_toString op = Throw e <->
       e = TypeError /\
       (id op = VUndefined \/ id op = VNull \/ value op = VUndefined \/ value op = VNull)) /\
    (forall e, RemoveOp_toString op = Throw e <->
       e = TypeError /\ (id op = VUndefined \/ id op = VNull)) /\
    (forall (i : Ident.t) (v : jsval),
       InsertOp_toString (InsertOp_new [VIdent i; v]) = Throw TypeError /\
       RemoveOp_toString (RemoveOp_new [VIdent i]) = Throw TypeError).
Proof.
  intros op. split; [|split].
  - intros e. unfold InsertOp_toString. split.
    + destruct (toString_method_cases (id op)) as [[-> Hi]|[-> (Hi1 & Hi2)]]; cbn;
        [intros [= <-]; tauto|].
      destruct (toString_method_cases (value op)) as [[-> Hv]|[-> (Hv1 & Hv2)]]; cbn;
        [intros [= <-]; tauto | discriminate].
    + intros [-> Hf].
      destruct (toString_method_cases (id op)) as [[-> Hi]|[-> (Hi1 & Hi2)]]; cbn;
        [reflexivity|].
      destruct (toString_method_cases (value op)) as [[-> Hv]|[-> (Hv1 & Hv2)]]; cbn;
        [reflexivity | tauto].
  - intros e. unfold RemoveOp_toString. split.
    + destruct (toString_method_cases (id op)) as [[-> Hi]|[-> (Hi1 & Hi2)]]; cbn;
        [intros [= <-]; tauto | discriminate].
    + intros [-> Hf].
      destruct (toString_method_cases (id op)) as [[-> Hi]|[-> (Hi1 & Hi2)]]; cbn;
        [reflexivity | tauto].
  - intros i v. split; reflexivity.
Qed.

(** X7.  The kind always survives the text form: whatever the fields
    of an operation, when its [toString()] returns a text, that text
    starts with the sigil of its class, [Op.parse] of it is not
    [undefined], and an operation [Op.parse] returns for it has the
    kind of that class. *)
Theorem kind_survives_text_form :
  forall (P : string -> outcome Ident.t) (op : Op) (str : string),
    (InsertOp_toString op = Ret str ->
     Js.char0 str = Some "+"%char /\
     Op_parse P str <> Ret None /\
     forall op', Op_parse P str = Ret (Some op') -> kind op' = OpKind.Insert) /\
    (RemoveOp_toString op = Ret str ->
     Js.char0 str = Some "-"%char /\
     Op_parse P str <> Ret None /\
     forall op', Op_parse P str = Ret (Some op') -> kind op' = OpKind.Remove).
Proof.
  intros P op str. split; intros Hs.
  - assert (Hc : Js.char0 str = Some "+"%char).
    { unfold InsertOp_toString in Hs.
      destruct (toString_method (id op)); [|discriminate].
      destruct (toString_method (value op)); [|discriminate].
      cbn in Hs. now injection Hs as <-. }
    destruct (Op_parse_kind_follows_sigil_aux P str) as [Hn Hk].
    split; [exact Hc|]. split.
    + intros Hnone. apply Hn in Hnone. tauto.
    + intros op' Hp. destruct (Hk op' Hp) as [[_ Hi]|[Hm _]]; [exact Hi | congruence].
  - assert (Hc : Js.char0 str = Some "-"%char).
    { unfold RemoveOp_toString in Hs.
      destruct (toString_method (id op)); [|discriminate].
      cbn in Hs. now injection Hs as <-. }
    destruct (Op_parse_kind_follows_sigil_aux P str) as [Hn Hk].
    split; [exact Hc|]. split.
    + intros Hnone. apply Hn in Hnone. tauto.
    + intros op' Hp. destruct (Hk op' Hp) as [[Hm _]|(_ & Hr & _)]; [congruence | exact Hr].
Qed.

Lemma kind_survives_text_form_witness :
  InsertOp_toString Sample.insert_x = Ret "+A:1:7,A:x" /\
  Js.char0 "+A:1:7,A:x" = Some "+"%char /\
  Op_parse Sample.field_parse "+A:1:7,A:x" <> Ret None /\
  (forall op', Op_parse Sample.field_parse "+A:1:7,A:x" = Ret (Some op') ->
               kind op' = OpKind.Insert).
Proof.
  split; [reflexivity|].
  exact (proj1 (kind_survives_text_form Sample.field_parse Sample.insert_x "+A:1:7,A:x")
           eq_refl).
Defined.

(** * Further properties of the facade, for any storage and generator *)

Section FacadeFrames.

Context {St G : Type} `{Storage St} `{IdentGenerator G}.

Implicit Types (s : Sequence.t St G) (op : Op).

(** The ways [insert] ends before it reaches the storage. *)
Lemma insert_fails_before_storage_aux :
  forall s v pos,
    (Storage_get (Sequence.storage s) pos = None \/
     Storage_get (Sequence.storage s) (pos + 1) = None ->
     Sequence.insert v pos s = (Throw TypeError, s)) /\
    (forall before after e g',
       Storage_get (Sequence.storage s) pos = Some before ->
       Storage_get (Sequence.storage s) (pos + 1) = Some after ->
       getIdent (Sequence.idGenerator s) (atom_id before) (atom_id after) = (Throw e, g') ->
       Sequence.insert v pos s =
         (Throw e,
          Sequence.mk (Sequence.replica s) (Sequence.maxDepth s) (Sequence.storage s) g')).
Proof.
  intros s v pos. split.
  - intros Hn. run_method.
    destruct (Storage_get (Sequence.storage s) pos) as [b|];
      destruct (Storage_get (Sequence.storage s) (pos + 1)) as [a|];
      try reflexivity.
    destruct Hn; discriminate.
  - intros before after e g' Hb Ha Hg. run_method.
    rewrite Hb, Ha. cbn [Sequence.storage Sequence.idGenerator]. run_method.
    now rewrite Hg.
Qed.

(** X8.  [insert] reaches the storage only after both neighbours were
    found and the generator returned: with no atom at [pos] or at
    [pos + 1] the call throws a [TypeError] and leaves the sequence as
    it was, and when the generator throws, the call throws the same
    exception and only the generator may have changed. *)
Theorem insert_fails_before_storage :
  forall s v pos,
    (Storage_get (Sequence.storage s) pos = None \/
     Storage_get (Sequence.storage s) (pos + 1) = None ->
     Sequence.insert v pos s = (Throw TypeError, s)) /\
    (forall before after e g',
       Storage_get (Sequence.storage s) pos = Some before ->
       Storage_get (Sequence.storage s) (pos + 1) = Some after ->
       getIdent (Sequence.idGenerator s) (atom_id before) (atom_id after) = (Throw e, g') ->
       Sequence.insert v pos s =
         (Throw e,
          Sequence.mk (Sequence.replica s) (Sequence.maxDepth s) (Sequence.storage s) g')).
Proof.
  intros s v pos. destruct (insert_fails_before_storage_aux s v pos) as [Hn Hg].
  split; [exact Hn | exact Hg].
Qed.

Lemma insert_keeps_replica v pos s :
  Sequence.replica (snd (Sequence.insert v pos s)) = Sequence.replica s.
Proof.
  run_method.
  destruct (Storage_get (Sequence.storage s) pos) as [b|]; [|reflexivity].
  destruct (Storage_get (Sequence.storage s) (pos + 1)) as [a|]; [|reflexivity].
  cbn. destruct (getIdent _ _ _) as [[i|e] g']; [|reflexivity].
  cbn. destruct (Storage_add _ _ _) as [[[]|e] st']; cbn; [|reflexivity].
  now destruct (Sequence.maxDepth_lt _ _).
Qed.

Lemma step_keeps_replica s c : Sequence.replica (step s c) = Sequence.replica s.
Proof.
  destruct c as [v pos|v|pos|op]; cbn [step].
  - apply insert_keeps_replica.
  - apply insert_keeps_replica.
  - rewrite remove_unfolded. now destruct (Storage_get _ _).
  - apply apply_keeps_fields.
Qed.

(** X9.  No public method writes the replica id: it is the same after
    any sequence of [insert], [append], [remove] and [apply] calls,
    whether they return or throw. *)
Theorem replica_never_changes :
  forall (calls : list call) s,
    Sequence.replica (run calls s) = Sequence.replica s.
Proof.
  induction calls as [|c calls IH]; intros s; [reflexivity|].
  cbn [run fold_left]. etransitivity; [apply IH | apply step_keeps_replica].
Qed.

(** X10.  Only [insert] and [append] use the generator and [maxDepth]:
    a sequence of [remove] and [apply] calls leaves both as they
    were. *)
Theorem remove_apply_keep_generator :
  forall (calls : list call) s,
    Forall (fun c => match c with
                     | CRemove _ | CApply _ => True
                     | CInsert _ _ | CAppend _ => False
                     end) calls ->
    Sequence.idGenerator (run calls s) = Sequence.idGenerator s /\
    Sequence.maxDepth (run calls s) = Sequence.maxDepth s.
Proof.
  induction calls as [|c calls IH]; intros s Hc; [now split|].
  inversion Hc as [|? ? Hhead Htail]; subst. cbn [run fold_left].
  destruct (IH (step s c) Htail) as [Hg Hm]. unfold run in *.
  rewrite Hg, Hm. clear IH Hg Hm Hc Htail.
  destruct c as [v pos|v|pos|op]; try contradiction; cbn [step].
  - rewrite remove_unfolded. now destruct (Storage_get _ _).
  - destruct (apply_keeps_fields op s) as (_ & Hm & _ & Hg). now split.
Qed.

Lemma insert_depth_grows v pos s m :
  Sequence.maxDepth s = Some m ->
  exists m', Sequence.maxDepth (snd (Sequence.insert v pos s)) = Some m' /\ m <= m'.
Proof.
  intros Hm. run_method.
  destruct (Storage_get (Sequence.storage s) pos) as [b|];
    [|exists m; split; [exact Hm | lia]].
  destruct (Storage_get (Sequence.storage s) (pos + 1)) as [a|];
    [|exists m; split; [exact Hm | lia]].
  cbn. destruct (getIdent _ _ _) as [[i|e] g']; [|exists m; split; [exact Hm | lia]].
  cbn. destruct (Storage_add _ _ _) as [[[]|e] st']; cbn;
    [|exists m; split; [exact Hm | lia]].
  unfold Sequence.maxDepth_lt. rewrite Hm.
  destruct (Z.ltb_spec m (Ident.getDepth i)); cbn.
  - eexists. split; [reflexivity | lia].
  - exists m. split; [reflexivity | lia].
Qed.

(** X11.  Once [maxDepth] holds a number, no sequence of calls lowers
    it: [depth()] afterwards is a number at least as large. *)
Theorem depth_never_decreases :
  forall (calls : list call) s m,
    Sequence.maxDepth s = Some m ->
    exists m', Sequence.depth (run calls s) = Some m' /\ m <= m'.
Proof.
  unfold Sequence.depth.
  induction calls as [|c calls IH]; intros s m Hm.
  - exists m. split; [exact Hm | lia].
  - cbn [run fold_left].
    assert (Hstep : exists m1, Sequence.maxDepth (step s c) = Some m1 /\ m <= m1).
    { destruct c as [v pos|v|pos|op]; cbn [step].
      - now apply insert_depth_grows.
      - unfold Sequence.append. now apply insert_depth_grows.
      - rewrite remove_unfolded. exists m.
        destruct (Storage_get _ _); (split; [exact Hm | lia]).
      - exists m. rewrite (proj1 (proj2 (apply_keeps_fields op s))).
        split; [exact Hm | lia]. }
    destruct Hstep as (m1 & Hm1 & Hle).
    destruct (IH (step s c) m1 Hm1) as (m' & Hm' & Hle').
    exists m'. split; [exact Hm' | lia].
Qed.

(** X12.  On a storage whose [map] calls its callback once per atom in
    a fixed order, the projections agree: [map(f)] is [f] over
    [toArray()], and the values of the entries of [toJSON().d] are
    [toArray()], entry by entry. *)
Theorem projections_agree :
  forall s,
    map_visits_atoms St ->
    (forall (R : Type) (f : jsval -> R),
       Sequence.map f s = List.map f (Sequence.toArray s)) /\
    List.map snd (Sequence.d (Sequence.toJSON s)) = Sequence.toArray s /\
    List.length (Sequence.d (Sequence.toJSON s)) = List.length (Sequence.toArray s).
Proof.
  intros s Hlaw.
  assert (Hvals : List.map snd (Sequence.d (Sequence.toJSON s)) = Sequence.toArray s).
  { unfold Sequence.toJSON, Sequence.toArray. cbn [Sequence.d].
    rewrite (Hlaw _ (fun atom => (Ident.toString (atom_id atom), atom_value atom))).
    rewrite (Hlaw _ atom_value), List.map_map. reflexivity. }
  split; [|split; [exact Hvals|]].
  - intros R f. unfold Sequence.map, Sequence.toArray.
    rewrite (Hlaw _ (fun atom => f (atom_value atom))).
    rewrite (Hlaw _ atom_value), List.map_map. reflexivity.
  - rewrite <- Hvals. now rewrite List.length_map.
Qed.

End FacadeFrames.

Lemma ArrayStorage_map_visits_atoms : map_visits_atoms ArrayStorage.t.
Proof.
  intros R f st. cbn. unfold ArrayStorage.map. now rewrite List.map_id.
Qed.

Lemma insert_fails_before_storage_witness :
  Storage_get (Sequence.storage Sample.fresh) (1 + 1) = None /\
  Sequence.insert (VStr "x") 1 Sample.fresh = (Throw TypeError, Sample.fresh).
Proof.
  split; [reflexivity|].
  apply (proj1 (insert_fails_before_storage Sample.fresh (VStr "x") 1)).
  right. reflexivity.
Defined.

Lemma remove_apply_keep_generator_witness :
  Sequence.idGenerator (run [CRemove 0; CApply Sample.insert_x] Sample.fresh)
    = Sequence.idGenerator Sample.fresh /\
  Sequence.maxDepth (run [CRemove 0; CApply Sample.insert_x] Sample.fresh)
    = Sequence.maxDepth Sample.fresh.
Proof.
  apply (remove_apply_keep_generator [CRemove 0; CApply Sample.insert_x] Sample.fresh).
  repeat constructor.
Defined.

Lemma depth_never_decreases_witness :
  exists m',
    Sequence.depth (run [CApply Sample.insert_deep; CInsert (VStr "x") 0] Sample.shallow)
      = Some m' /\ 1 <= m'.
Proof.
  apply (depth_never_decreases [CApply Sample.insert_deep; CInsert (VStr "x") 0]
           Sample.shallow 1).
  reflexivity.
Defined.

Lemma projections_agree_witness :
  List.map snd (Sequence.d (Sequence.toJSON (run [CApply Sample.insert_x] Sample.fresh)))
    = Sequence.toArray (run [CApply Sample.insert_x] Sample.fresh).
Proof.
  exact (proj1 (proj2 (projections_agree (run [CApply Sample.insert_x] Sample.fresh)
                         ArrayStorage_map_visits_atoms))).
Defined.

(** * Further properties on the array storage: merging operations *)

Lemma stored_dec (i : Ident.t) (l : list Atom) : stored i l \/ ~ stored i l.
Proof.
  unfold stored. induction l as [|a l [(b & Hb & Hi)|Hn]].
  - right. intros (b & [] & _).
  - left. exists b. split; [now right | exact Hi].
  - destruct (Ident.compare (atom_id a) i) eqn:E.
    + left. exists a. split; [now left | now apply Ident_compare_eq].
    + right. intros (b & [<-|Hb] & Hi); [|now apply Hn; exists b].
      rewrite Hi, Ident_compare_refl in E. discriminate.
    + right. intros (b & [<-|Hb] & Hi); [|now apply Hn; exists b].
      rewrite Hi, Ident_compare_refl in E. discriminate.
Qed.

Lemma In_insert_atom_iff (i : Ident.t) (v : jsval) (l : list Atom) (a : Atom) :
  ascending l ->
  (In a (ArrayStorage.insert_atom i v l) <-> In a l \/ (a = mkAtom i v /\ ~ stored i l)).
Proof.
  intros Hs. split.
  - intros Hin. destruct (stored_dec i l) as [(b & Hb & Hi)|Hn].
    + left. now rewrite (insert_atom_present i v l b Hs Hb Hi) in Hin.
    + apply insert_atom_In in Hin as [->|Hin]; auto.
  - intros [Hin|[-> Hn]]; [now apply insert_atom_keeps|].
    destruct (insert_atom_stores i v l) as (w & Hin & [->|Hw]); [exact Hin|].
    exfalso. apply Hn. now exists (mkAtom i w).
Qed.

Lemma In_delete_atom_iff (i : Ident.t) (l : list Atom) (a : Atom) :
  ascending l ->
  (In a (ArrayStorage.delete_atom i l) <-> In a l /\ atom_id a <> i).
Proof.
  intros Hs. split.
  - intros Hin. split; [eapply delete_atom_In, Hin | eapply delete_atom_removes; eauto].
  - intros [Hin Hne]. apply delete_atom_keeps; [exact Hin|].
    rewrite Ident_compare_eq_iff. congruence.
Qed.

(** Two ascending arrays with the same atoms are the same array. *)
Lemma ascending_ext (l1 l2 : list Atom) :
  ascending l1 -> ascending l2 -> (forall a, In a l1 <-> In a l2) -> l1 = l2.
Proof.
  unfold ascending. revert l2.
  induction l1 as [|a l1 IH]; intros [|b l2] H1 H2 Hin.
  - reflexivity.
  - exfalso. apply (proj2 (Hin b)). now left.
  - exfalso. apply (proj1 (Hin a)). now left.
  - inversion H1 as [|? ? Hs1 Ha]; inversion H2 as [|? ? Hs2 Hb]; subst.
    assert (Hlt1 : forall x, In x l1 -> atom_lt a x)
      by (intros x Hx; now apply (proj1 (Forall_forall _ _) Ha)).
    assert (Hlt2 : forall x, In x l2 -> atom_lt b x)
      by (intros x Hx; now apply (proj1 (Forall_forall _ _) Hb)).
    assert (Hab : a = b).
    { destruct (proj1 (Hin a) (or_introl eq_refl)) as [Hba|Ha2]; [congruence|].
      destruct (proj2 (Hin b) (or_introl eq_refl)) as [Hba|Hb1]; [congruence|].
      exfalso. apply (Ident_lt_irrefl (atom_id a)).
      eapply Ident_lt_trans; [apply (Hlt1 b Hb1) | apply (Hlt2 a Ha2)]. }
    subst b. f_equal. apply IH; try assumption.
    intros x. split; intros Hx.
    + destruct (proj1 (Hin x) (or_intror Hx)) as [<-|Hx2]; [|exact Hx2].
      exfalso. exact (Ident_lt_irrefl _ (Hlt1 a Hx)).
    + destruct (proj2 (Hin x) (or_intror Hx)) as [<-|Hx1]; [|exact Hx1].
      exfalso. exact (Ident_lt_irrefl _ (Hlt2 a Hx)).
Qed.

Lemma stored_insert_iff (i j : Ident.t) (w : jsval) (l : list Atom) :
  ascending l ->
  (stored i (ArrayStorage.insert_atom j w l) <-> stored i l \/ i = j).
Proof.
  intros Hs. unfold stored. split.
  - intros (b & Hb & Hi).
    apply (proj1 (In_insert_atom_iff _ _ _ _ Hs)) in Hb. destruct Hb as [Hb|[Hb _]].
    + left. now exists b.
    + right. subst b. now rewrite <- Hi.
  - intros [(b & Hb & Hi)| ->].
    + exists b. split; [now apply insert_atom_keeps | exact Hi].
    + destruct (insert_atom_stores j w l) as (u & Hin & _). now exists (mkAtom j u).
Qed.

Lemma stored_delete_iff (i j : Ident.t) (l : list Atom) :
  ascending l ->
  (stored i (ArrayStorage.delete_atom j l) <-> stored i l /\ i <> j).
Proof.
  intros Hs. unfold stored. split.
  - intros (b & Hb & Hi).
    apply (proj1 (In_delete_atom_iff _ _ _ Hs)) in Hb. destruct Hb as [Hb Hne].
    split; [now exists b | congruence].
  - intros [(b & Hb & Hi) Hne]. exists b. split; [|exact Hi].
    apply In_delete_atom_iff; [exact Hs|]. split; [exact Hb | congruence].
Qed.

Lemma applied_ascending (op : Op) (l : list Atom) :
  ascending l -> ascending (applied op l).
Proof.
  intros Hs. unfold applied. destruct (id op); try exact Hs.
  destruct (kind op =? OpKind.Insert); [now apply insert_atom_ascending|].
  destruct (kind op =? OpKind.Remove); [now apply delete_atom_ascending | exact Hs].
Qed.

(** Operations on different identifiers commute on an ascending array. *)
Lemma applied_comm (o1 o2 : Op) (l : list Atom) :
  ascending l -> id o1 <> id o2 ->
  applied o1 (applied o2 l) = applied o2 (applied o1 l).
Proof.
  intros Hs Hne.
  apply ascending_ext; try (now repeat apply applied_ascending).
  unfold applied.
  destruct (id o1) as [| | | | |i]; try reflexivity;
    destruct (id o2) as [| | | | |j]; try reflexivity.
  assert (Hij : i <> j) by congruence. clear Hne.
  destruct (kind o1 =? OpKind.Insert); destruct (kind o2 =? OpKind.Insert);
    [| destruct (kind o2 =? OpKind.Remove)
     | destruct (kind o1 =? OpKind.Remove)
     | destruct (kind o1 =? OpKind.Remove); destruct (kind o2 =? OpKind.Remove)];
    try reflexivity; intros a;
    repeat first
      [ rewrite In_insert_atom_iff
          by auto using insert_atom_ascending, delete_atom_ascending
      | rewrite In_delete_atom_iff
          by auto using insert_atom_ascending, delete_atom_ascending
      | rewrite stored_insert_iff by assumption
      | rewrite stored_delete_iff by assumption ];
    intuition (subst; cbn in *; congruence).
Qed.

Lemma applied_idem (op : Op) (l : list Atom) :
  ascending l -> applied op (applied op l) = applied op l.
Proof.
  intros Hs.
  apply ascending_ext; try (now repeat apply applied_ascending).
  unfold applied. destruct (id op) as [| | | | |i]; try reflexivity.
  destruct (kind op =? OpKind.Insert); [|destruct (kind op =? OpKind.Remove)];
    try reflexivity; intros a;
    repeat first
      [ rewrite In_insert_atom_iff
          by auto using insert_atom_ascending, delete_atom_ascending
      | rewrite In_delete_atom_iff
          by auto using insert_atom_ascending, delete_atom_ascending
      | rewrite stored_insert_iff by assumption
      | rewrite stored_delete_iff by assumption ];
    tauto.
Qed.

Lemma delete_atom_absent (i : Ident.t) (l : list Atom) :
  ~ stored i l -> ArrayStorage.delete_atom i l = l.
Proof.
  induction l as [|a l IH]; simpl; intros Hn; [reflexivity|].
  destruct (Ident.compare i (atom_id a)) eqn:E.
  - exfalso. apply Hn. exists a. split; [now left|].
    symmetry. now apply Ident_compare_eq.
  - f_equal. apply IH. intros (b & Hb & Hi). apply Hn. exists b. split; [now right | exact Hi].
  - f_equal. apply IH. intros (b & Hb & Hi). apply Hn. exists b. split; [now right | exact Hi].
Qed.

Lemma delete_insert_fresh (i : Ident.t) (v : jsval) (l : list Atom) :
  ascending l -> ~ stored i l ->
  ArrayStorage.delete_atom i (ArrayStorage.insert_atom i v l) = l.
Proof.
  intros Hs Hn.
  apply ascending_ext;
    [now apply delete_atom_ascending, insert_atom_ascending | exact Hs |].
  intros a. rewrite In_delete_atom_iff by now apply insert_atom_ascending.
  rewrite In_insert_atom_iff by assumption. split.
  - intros [[Hin|[-> _]] Hne]; [exact Hin | now cbn in Hne].
  - intros Hin. split; [now left|]. intros Hi. apply Hn. now exists a.
Qed.

Lemma length_insert_fresh (i : Ident.t) (v : jsval) (l : list Atom) :
  ~ stored i l -> List.length (ArrayStorage.insert_atom i v l) = S (List.length l).
Proof.
  induction l as [|a l IH]; simpl; intros Hn; [reflexivity|].
  destruct (Ident.compare i (atom_id a)) eqn:E; simpl.
  - exfalso. apply Hn. exists a. split; [now left|].
    symmetry. now apply Ident_compare_eq.
  - reflexivity.
  - f_equal. apply IH. intros (b & Hb & Hi). apply Hn. exists b. split; [now right | exact Hi].
Qed.

Lemma length_delete_stored (i : Ident.t) (l : list Atom) :
  stored i l -> S (List.length (ArrayStorage.delete_atom i l)) = List.length l.
Proof.
  induction l as [|a l IH]; simpl; intros (b & Hb & Hi); [contradiction|].
  destruct (Ident.compare i (atom_id a)) eqn:E; simpl; [reflexivity | |];
    (f_equal; apply IH; destruct Hb as [<-|Hb]; [|now exists b];
     rewrite Hi, Ident_compare_refl in E; discriminate).
Qed.

Section Merging.

Context {G : Type} `{IdentGenerator G}.

Implicit Types (s : Sequence.t ArrayStorage.t G) (op : Op).

Lemma apply_state op s :
  snd (Sequence.apply op s) =
  Sequence.mk (Sequence.replica s) (Sequence.maxDepth s)
    (applied op (Sequence.storage s)) (Sequence.idGenerator s).
Proof.
  run_method. unfold applied.
  destruct (kind op =? OpKind.Insert); [destruct (id op); reflexivity|].
  destruct (kind op =? OpKind.Remove); destruct (id op), s; reflexivity.
Qed.

Lemma run_applies (ops : list Op) s :
  run (List.map CApply ops) s =
  Sequence.mk (Sequence.replica s) (Sequence.maxDepth s)
    (fold_left (fun l o => applied o l) ops (Sequence.storage s))
    (Sequence.idGenerator s).
Proof.
  revert s. induction ops as [|o ops IH]; intros s; [now destruct s|].
  cbn [List.map run fold_left step]. unfold run in IH. rewrite IH, apply_state.
  reflexivity.
Qed.

Lemma merge_order_free (ops ops' : list Op) (l : list Atom) :
  Permutation ops ops' -> NoDup (List.map id ops) -> ascending l ->
  fold_left (fun l o => applied o l) ops l = fold_left (fun l o => applied o l) ops' l.
Proof.
  intros Hp. revert l.
  induction Hp as [|x ops ops' Hp IH|x y ops|ops ops1 ops2 Hp1 IH1 Hp2 IH2];
    intros l Hd Hs.
  - reflexivity.
  - cbn. inversion Hd; subst. apply IH; [assumption | now apply applied_ascending].
  - cbn. f_equal. apply applied_comm; [exact Hs|].
    inversion Hd as [|? ? Hnin _]; subst. intros Heq. apply Hnin. left. now symmetry.
  - etransitivity; [apply IH1; assumption|]. apply IH2; [|exact Hs].
    eapply Permutation_NoDup; [|exact Hd]. now apply Permutation_map.
Qed.

Lemma reachable_ascending (rep : string) (g : G) (calls : list call) A :
  Sequence.new rep ArrayStorage.empty g = Ret A ->
  ascending (Sequence.storage (run calls A)).
Proof. intros HA. eapply run_ascending, new_ascending, HA. Qed.

(** X13.  On the array storage, applying an operation a second time
    changes nothing: after any sequence of calls, the sequence after
    [apply(op); apply(op)] is the sequence after [apply(op)], for every
    [op]. *)
Theorem apply_twice_is_apply_once :
  forall (rep : string) (g : G) (calls : list call) (op : Op),
    exists A,
      Sequence.new rep ArrayStorage.empty g = Ret A /\
      run [CApply op; CApply op] (run calls A) = run [CApply op] (run calls A).
Proof.
  intros rep g calls op. eexists. split; [apply new_on_empty_array|].
  pose proof (reachable_ascending rep g calls _ (new_on_empty_array rep g)) as Hs.
  change [CApply op; CApply op] with (List.map CApply [op; op]).
  change [CApply op] with (List.map CApply [op]).
  rewrite !run_applies. cbn [fold_left]. now rewrite applied_idem.
Qed.

(** X14.  On the array storage, the order in which operations with
    pairwise different ids are applied does not matter: after any
    sequence of calls, applying a list of such operations and applying
    any permutation of it leave the same sequence (and the same
    [toArray()]). *)
Theorem apply_order_does_not_matter :
  forall (rep : string) (g : G) (calls : list call) (ops ops' : list Op),
    Permutation ops ops' ->
    NoDup (List.map id ops) ->
    exists A,
      Sequence.new rep ArrayStorage.empty g = Ret A /\
      run (List.map CApply ops) (run calls A) = run (List.map CApply ops') (run calls A) /\
      Sequence.toArray (run (List.map CApply ops) (run calls A)) =
      Sequence.toArray (run (List.map CApply ops') (run calls A)).
Proof.
  intros rep g calls ops ops' Hp Hd. eexists. split; [apply new_on_empty_array|].
  pose proof (reachable_ascending rep g calls _ (new_on_empty_array rep g)) as Hs.
  assert (Heq : run (List.map CApply ops)
                  (run calls (Sequence.mk rep None
                     (ArrayStorage.insert_atom (snd (getBookends g)) VNull
                        [mkAtom (fst (getBookends g)) VNull]) g)) =
                run (List.map CApply ops')
                  (run calls (Sequence.mk rep None
                     (ArrayStorage.insert_atom (snd (getBookends g)) VNull
                        [mkAtom (fst (getBookends g)) VNull]) g))).
  { rewrite !run_applies. f_equal. now apply merge_order_free. }
  split; [exact Heq | now rewrite Heq].
Qed.

(** X15.  On the array storage there are no tombstones.  For an
    identifier that is not stored: insert then remove leaves the
    sequence as it was, while remove then insert leaves the value
    stored, exactly as the insert alone does -- a remove applied
    before its insert is lost. *)
Theorem remove_before_insert_is_lost :
  forall (rep : string) (g : G) (calls : list call) (i : Ident.t) (v r t r' t' v' : jsval),
    exists A,
      Sequence.new rep ArrayStorage.empty g = Ret A /\
      (~ stored i (Sequence.storage (run calls A)) ->
       run [CApply (mkOp OpKind.Insert r t (VIdent i) v);
            CApply (mkOp OpKind.Remove r' t' (VIdent i) v')] (run calls A)
         = run calls A /\
       run [CApply (mkOp OpKind.Remove r' t' (VIdent i) v');
            CApply (mkOp OpKind.Insert r t (VIdent i) v)] (run calls A)
         = run [CApply (mkOp OpKind.Insert r t (VIdent i) v)] (run calls A) /\
       In (mkAtom i v)
          (Sequence.storage
             (run [CApply (mkOp OpKind.Remove r' t' (VIdent i) v');
                   CApply (mkOp OpKind.Insert r t (VIdent i) v)] (run calls A)))).
Proof.
  intros rep g calls i v r t r' t' v'. eexists. split; [apply new_on_empty_array|].
  pose proof (reachable_ascending rep g calls _ (new_on_empty_array rep g)) as Hs.
  intros Hn.
  set (s := run calls _) in *.
  set (ins := mkOp OpKind.Insert r t (VIdent i) v).
  set (rem := mkOp OpKind.Remove r' t' (VIdent i) v').
  change [CApply ins; CApply rem] with (List.map CApply [ins; rem]).
  change [CApply rem; CApply ins] with (List.map CApply [rem; ins]).
  change [CApply ins] with (List.map CApply [ins]).
  rewrite !run_applies. cbn [fold_left]. unfold applied, ins, rem. cbn.
  rewrite (delete_insert_fresh i v _ Hs Hn), (delete_atom_absent i _ Hn).
  split; [now destruct s|]. split; [reflexivity|].
  apply In_insert_atom_iff; [exact Hs|]. now right.
Qed.

(** X16.  What an applied operation does to [size()] on the array
    storage, after any sequence of calls: an insert of an identifier
    that is not stored adds one, an insert of a stored identifier adds
    nothing; a remove of a stored identifier takes one away, a remove
    of an identifier that is not stored takes nothing. *)
Theorem apply_size_accounting :
  forall (rep : string) (g : G) (calls : list call) (op : Op) (i : Ident.t),
    exists A,
      Sequence.new rep ArrayStorage.empty g = Ret A /\
      (id op = VIdent i ->
       (kind op = OpKind.Insert -> ~ stored i (Sequence.storage (run calls A)) ->
        Sequence.size (snd (Sequence.apply op (run calls A))) = Sequence.size (run calls A) + 1) /\
       (kind op = OpKind.Insert -> stored i (Sequence.storage (run calls A)) ->
        Sequence.size (snd (Sequence.apply op (run calls A))) = Sequence.size (run calls A)) /\
       (kind op = OpKind.Remove -> stored i (Sequence.storage (run calls A)) ->
        Sequence.size (snd (Sequence.apply op (run calls A))) = Sequence.size (run calls A) - 1) /\
       (kind op = OpKind.Remove -> ~ stored i (Sequence.storage (run calls A)) ->
        Sequence.size (snd (Sequence.apply op (run calls A))) = Sequence.size (run calls A))).
Proof.
  intros rep g calls op i. eexists. split; [apply new_on_empty_array|].
  pose proof (reachable_ascending rep g calls _ (new_on_empty_array rep g)) as Hs.
  set (s := run calls _) in *. intros Hid.
  rewrite apply_state. unfold Sequence.size, applied.
  cbn [Sequence.storage Storage_size ArrayStorage_Storage]. unfold ArrayStorage.size.
  rewrite Hid. repeat split; intros Hk Hst; rewrite Hk; cbn.
  - rewrite (length_insert_fresh i _ _ Hst). lia.
  - destruct Hst as (b & Hb & Hi). now rewrite (insert_atom_present i _ _ b Hs Hb Hi).
  - rewrite <- (length_delete_stored i _ Hst). lia.
  - now rewrite (delete_atom_absent i _ Hst).
Qed.

End Merging.

Lemma apply_order_does_not_matter_witness :
  exists A,
    Sequence.new "A" ArrayStorage.empty Sample.generator = Ret A /\
    run (List.map CApply [Sample.insert_x; Sample.insert_y; Sample.remove_MIN]) (run [] A) =
    run (List.map CApply [Sample.remove_MIN; Sample.insert_y; Sample.insert_x]) (run [] A) /\
    Sequence.toArray
      (run (List.map CApply [Sample.insert_x; Sample.insert_y; Sample.remove_MIN]) (run [] A)) =
    Sequence.toArray
      (run (List.map CApply [Sample.remove_MIN; Sample.insert_y; Sample.insert_x]) (run [] A)).
Proof.
  apply (apply_order_does_not_matter "A" Sample.generator []
           [Sample.insert_x; Sample.insert_y; Sample.remove_MIN]
           [Sample.remove_MIN; Sample.insert_y; Sample.insert_x]).
  - apply Permutation_rev.
  - repeat constructor; cbn; intuition discriminate.
Defined.

Lemma x_id_not_stored_in_fresh : ~ stored Sample.x_id (Sequence.storage Sample.fresh).
Proof.
  intros (b & Hb & Hi). cbn in Hb.
  destruct Hb as [<-|[<-|[]]]; discriminate Hi.
Qed.

Lemma remove_before_insert_is_lost_witness :
  run [CApply Sample.insert_x;
       CApply (mkOp OpKind.Remove (VStr "B") (VNum 1) (VIdent Sample.x_id) VUndefined)]
      Sample.fresh = Sample.fresh /\
  In (mkAtom Sample.x_id (VStr "x"))
     (Sequence.storage
        (run [CApply (mkOp OpKind.Remove (VStr "B") (VNum 1) (VIdent Sample.x_id) VUndefined);
              CApply Sample.insert_x] Sample.fresh)).
Proof.
  destruct (remove_before_insert_is_lost "A" Sample.generator [] Sample.x_id (VStr "x")
              (VStr "A") (VNum 1) (VStr "B") (VNum 1) VUndefined) as (A & HA & Hlost).
  injection HA as <-.
  destruct (Hlost x_id_not_stored_in_fresh) as (Hundo & _ & Hin).
  split; [exact Hundo | exact Hin].
Defined.

Lemma apply_size_accounting_witness :
  Sequence.size (snd (Sequence.apply Sample.insert_x Sample.fresh))
    = Sequence.size Sample.fresh + 1.
Proof.
  destruct (apply_size_accounting "A" Sample.generator [] Sample.insert_x Sample.x_id)
    as (A & HA & Hsize).
  injection HA as <-.
  exact (proj1 (Hsize eq_refl) eq_refl x_id_not_stored_in_fresh).
Defined.

(** * Further properties on the array storage: positions *)

Section Positions.

Context {G : Type} `{IdentGenerator G}.

Implicit Types (s : Sequence.t ArrayStorage.t G).

Lemma array_get_none (l : list Atom) (pos : Z) :
  ArrayStorage.get l pos = None <-> pos < 0 \/ Z.of_nat (List.length l) <= pos.
Proof.
  unfold ArrayStorage.get. destruct (Z.ltb_spec pos 0); [intuition|].
  rewrite nth_error_None. lia.
Qed.

(** X18.  On the array storage [remove(pos)] returns [null] exactly
    for the positions outside the whole array, [pos < 0] or
    [pos >= size() + 2], and then the sequence is as it was; so, as
    long as [size()] is not negative, [remove(size())] and
    [remove(size() + 1)] do not return [null]. *)
Theorem remove_null_outside_array :
  forall s (pos : Z),
    (fst (Sequence.remove pos s) = Ret None <-> pos < 0 \/ Sequence.size s + 2 <= pos) /\
    (fst (Sequence.remove pos s) = Ret None -> snd (Sequence.remove pos s) = s) /\
    (0 <= Sequence.size s ->
     fst (Sequence.remove (Sequence.size s) s) <> Ret None /\
     fst (Sequence.remove (Sequence.size s + 1) s) <> Ret None).
Proof.
  intros s pos.
  assert (Hnull : forall p,
            (fst (Sequence.remove p s) = Ret None <-> p < 0 \/ Sequence.size s + 2 <= p) /\
            (fst (Sequence.remove p s) = Ret None -> snd (Sequence.remove p s) = s)).
  { intros p. rewrite remove_unfolded.
    assert (Hsize : Sequence.size s + 2 = Z.of_nat (List.length (Sequence.storage s))).
    { unfold Sequence.size. cbn. unfold ArrayStorage.size. lia. }
    rewrite Hsize.
    pose proof (array_get_none (Sequence.storage s) p) as Hnone.
    change (Storage_get (Sequence.storage s) p)
      with (ArrayStorage.get (Sequence.storage s) p).
    destruct (ArrayStorage.get (Sequence.storage s) p) as [atom|]; cbn.
    - split; [|discriminate]. split; [discriminate|].
      intros Hout. apply Hnone in Hout. discriminate.
    - split; [|reflexivity]. split; [intros _; now apply Hnone | reflexivity]. }
  split; [apply Hnull|]. split; [apply Hnull|].
  intros Hsize. split; intros Hn; apply (proj1 (proj1 (Hnull _))) in Hn; lia.
Qed.

Lemma last_two_positions (l : list Atom) (a b : Atom) :
  ArrayStorage.get (l ++ [a; b])%list (ArrayStorage.size (l ++ [a; b])%list - 2) = Some a /\
  ArrayStorage.get (l ++ [a; b])%list (ArrayStorage.size (l ++ [a; b])%list - 2 + 1) = Some b.
Proof.
  unfold ArrayStorage.size, ArrayStorage.get. rewrite List.length_app. cbn [List.length].
  replace (Z.of_nat (List.length l + 2) - 2) with (Z.of_nat (List.length l)) by lia.
  replace (Z.of_nat (List.length l) + 1) with (Z.of_nat (S (List.length l))) by lia.
  destruct (Z.ltb_spec (Z.of_nat (List.length l)) 0); [lia|].
  destruct (Z.ltb_spec (Z.of_nat (S (List.length l))) 0); [lia|].
  rewrite !Nat2Z.id. split.
  - rewrite nth_error_app2 by lia. now rewrite Nat.sub_diag.
  - rewrite nth_error_app2 by lia.
    now replace (S (List.length l) - List.length l)%nat with 1%nat by lia.
Qed.

(** X19.  On the array storage [append] asks the generator for an
    identifier between the last two atoms of the array: with at least
    two atoms stored, the generator the call leaves behind is the one
    [getIdent], called with the identifiers of the last two atoms,
    leaves behind, and an exception of that [getIdent] is the
    exception of the call; with fewer than two atoms stored the call
    throws a [TypeError] and leaves the sequence as it was. *)
Theorem append_neighbours_are_last_two :
  forall s (v : jsval),
    (forall l a b,
       Sequence.storage s = (l ++ [a; b])%list ->
       Sequence.idGenerator (snd (Sequence.append v s)) =
         snd (getIdent (Sequence.idGenerator s) (atom_id a) (atom_id b)) /\
       (forall e, fst (getIdent (Sequence.idGenerator s) (atom_id a) (atom_id b)) = Throw e ->
                  fst (Sequence.append v s) = Throw e)) /\
    ((List.length (Sequence.storage s) < 2)%nat ->
     Sequence.append v s = (Throw TypeError, s)).
Proof.
  intros s v. split.
  - intros l a b Hl.
    destruct (last_two_positions l a b) as [Ha Hb].
    unfold Sequence.append, Sequence.size. run_method.
    cbn [Storage_get Storage_size ArrayStorage_Storage]. rewrite Hl, Ha, Hb. cbn.
    destruct (getIdent (Sequence.idGenerator s) (atom_id a) (atom_id b)) as [[i|e] g'];
      cbn; (split; [reflexivity|]); intros e0 He; [discriminate | congruence].
  - intros Hlen. unfold Sequence.append.
    apply (proj1 (insert_fails_before_storage_aux s v (Sequence.size s))).
    left. change (ArrayStorage.get (Sequence.storage s) (Sequence.size s) = None).
    apply array_get_none. unfold Sequence.size. cbn. unfold ArrayStorage.size. lia.
Qed.


End Positions.

Lemma remove_null_outside_array_witness :
  fst (Sequence.remove 2 Sample.fresh) = Ret None /\
  snd (Sequence.remove 2 Sample.fresh) = Sample.fresh.
Proof.
  split; [reflexivity|].
  exact (proj1 (proj2 (remove_null_outside_array Sample.fresh 2)) eq_refl).
Defined.

Lemma append_neighbours_are_last_two_witness :
  Sequence.idGenerator (snd (Sequence.append (VStr "z")
                               (run [CApply Sample.insert_x] Sample.fresh))) =
  snd (getIdent Sample.generator Sample.x_id Sample.MAX).
Proof.
  exact (proj1 (proj1 (append_neighbours_are_last_two
                         (run [CApply Sample.insert_x] Sample.fresh) (VStr "z"))
                  [mkAtom Sample.MIN VNull] (mkAtom Sample.x_id (VStr "x"))
                  (mkAtom Sample.MAX VNull) eq_refl)).
Defined.


(** The projection of replica B after the two remote inserts. *)
Example toJSON_after_remote_inserts :
  Sequence.toJSON (run [CApply Sample.insert_y; CApply Sample.insert_x] Sample.fresh)
  = Sequence.mkJSON "A" [("7,A", VStr "x"); ("19,A", VStr "y")].
Proof. reflexivity. Qed.

